(** * MultiAgentLudoEnv: a shallow embedding of [LudoEnv] and its rules

    The Python class [LudoEnv] (src/MultiAgentLudoEnv.py) is a PettingZoo
    turn-based environment for four-player Ludo.  The development below
    embeds its methods as functions over a record of the instance
    attributes and proves the rules of the game against them.

    Conventions.
    - Python integers and NumPy [int] cells are [Z]; every value the game
      stores is far from the 64-bit bounds, so no wrap-around is involved.
    - The 4x4 NumPy array [self.state] is a list of rows, read with the
      total lookup [!!!] and written with [<[i:=x]>].
    - Agent names are the values of the enum [Player]; a dictionary keyed by
      agent name whose key set is always the four agents is a total map
      [Player -> _], updated with [<[a:=v]>].
    - [np.random.randint(1, 7)] is an input [draw] of [step]; the relation
      [Step] quantifies over the values it can return.
    - The parts of PettingZoo the class relies on ([agent_selector] and
      [AECEnv._was_done_step]) are parameters of the section [Engine]. *)

From stdpp Require Import base numbers list functions relations.

Local Open Scope Z_scope.
Set Default Proof Using "Type".

(** ** Module-level constants *)

Inductive Player := RED | GREEN | BLUE | YELLOW.

#[global] Instance Player_eq_dec : EqDecision Player.
Proof. solve_decision. Defined.

Definition NUM_PLAYERS : nat := 4.
Definition NUM_TOKENS : nat := 4.
Definition OUT_OF_BOUNDS : Z := -1.
Definition START_SQUARE : Z := 0.
Definition FINAL_SQUARE : Z := 58.

(** Python's [range(a, b)] as a list. *)
Definition range (a b : Z) : list Z := seqZ a (b - a).

(** [x in l] on a list of integers. *)
Definition contains (x : Z) (l : list Z) : bool := existsb (Z.eqb x) l.

(** [l.index(x)]: position of the first occurrence.  Python raises
    [ValueError] when [x] does not occur; here the length of [l] is
    returned, which never happens for [possible_agents] (lemma
    [possible_agents_index]). *)
Fixpoint index (x : Player) (l : list Player) : nat :=
  match l with
  | [] => 0%nat
  | y :: l' => if decide (x = y) then 0%nat else S (index x l')
  end.

(** ** Attributes set once in [__init__] *)

Definition possible_agents : list Player := [RED; GREEN; BLUE; YELLOW].
Definition start_positions : list Z := [0; 13; 26; 39].
Definition home_stretches : list (list Z) :=
  [range 51 57; range 12 18; range 25 31; range 38 44].

(** ** The board *)

Abbreviation Board := (list (list Z)).

(** [st[i][j]] *)
Definition cell (st : Board) (i j : nat) : Z := (st !!! i) !!! j.

(** [st[i][j] = v] *)
Definition set_cell (st : Board) (i j : nat) (v : Z) : Board :=
  <[i := <[j := v]> (st !!! i)]> st.

(** The shape [(NUM_PLAYERS, NUM_TOKENS)] every board is created with. *)
Definition board_shape (st : Board) : Prop :=
  length st = NUM_PLAYERS ∧ Forall (λ row, length row = NUM_TOKENS) st.

(** The three position domains: bench, shared loop, home stretch with the
    terminal cell. *)
Definition on_bench (v : Z) : Prop := v = OUT_OF_BOUNDS.
Definition on_loop (v : Z) : Prop := 0 <= v <= 51.
Definition on_home (v : Z) : Prop := 52 <= v <= FINAL_SQUARE.
Definition valid_position (v : Z) : Prop := on_bench v ∨ on_loop v ∨ on_home v.
Definition valid_board (st : Board) : Prop := Forall (Forall valid_position) st.

(** ** Instance attributes

    [AgentSelector] is the type of PettingZoo's [agent_selector] objects. *)

Record LudoEnv (AgentSelector : Type) := mkLudoEnv {
  state : Board;
  current_player : Player;
  dice_roll : Z;
  agent_selection : Player;
  _cumulative_rewards : Player → Z;
  _agent_selector : AgentSelector;
  rewards : Player → Z;
  _dones : Player → bool;
}.

Arguments mkLudoEnv {_} _ _ _ _ _ _ _ _.
Arguments state {_} _.
Arguments current_player {_} _.
Arguments dice_roll {_} _.
Arguments agent_selection {_} _.
Arguments _cumulative_rewards {_} _ _.
Arguments _agent_selector {_} _.
Arguments rewards {_} _ _.
Arguments _dones {_} _ _.

(** ** A concrete selector for the examples

    A cyclic selector over a list of agents: [next()] returns the agents
    of the list in order, starting again after the last one. *)

#[global] Instance Player_inhabited : Inhabited Player := populate RED.

Record Cyclic := mkCyclic { order : list Player; position : nat }.

Definition cyclic_selector (agents : list Player) : Cyclic :=
  mkCyclic agents 0.

Definition cyclic_next (s : Cyclic) : Player * Cyclic :=
  (order s !!! (position s `mod` length (order s))%nat,
   mkCyclic (order s) (S (position s))).

(** An instance with the given board, agent to move and last roll, no
    rewards yet and no agent done. *)
Definition playing (st : Board) (agent : Player) (roll : Z) : LudoEnv Cyclic :=
  mkLudoEnv st RED roll agent (λ _, 0) (cyclic_selector possible_agents)
    (λ _, 0) (λ _, false).

(** A handler for done agents that leaves the instance as it is. *)
Definition idle (action : Z) (self : LudoEnv Cyclic) : LudoEnv Cyclic := self.

Definition empty_board : Board :=
  replicate NUM_PLAYERS (replicate NUM_TOKENS OUT_OF_BOUNDS).

(** A board on which Red's token 0 stands on cell 7 and Green's token 0 on
    Green's start square. *)
Definition red_near_green_start : Board :=
  [[7; -1; -1; -1]; [13; -1; -1; -1]; [-1; -1; -1; -1]; [-1; -1; -1; -1]].

(** A board on which Red's token 0 stands on cell 55 of the home stretch,
    Red's token 1 on cell 58, and Green's token 0 on cell 20 of the loop. *)
Definition red_in_home_stretch : Board :=
  [[55; 58; -1; -1]; [20; -1; -1; -1]; [-1; -1; -1; -1]; [-1; -1; -1; -1]].

(** Draws and actions with which Green brings its four tokens home under
    the cyclic selector: every other agent passes, and Green enters each
    token with a 6, then moves it with a 1 and a 4. *)
Definition green_wins : list (Z * Z) :=
  [(1, 0); (1, 0)]
  ++ mjoin ((λ turn, [turn; (1, 0); (1, 0); (1, 0)])
            <$> mjoin ((λ token : Z, [(6, 0); (1, token); (4, token)])
                       <$> [1; 2; 3; 4])).

(** The same play, stopped just before Green's last move. *)
Definition green_almost_wins : list (Z * Z) := take 46 green_wins.



(** ** Observations

    The dictionary returned by [observe]; its key ["current_player"] is
    the field [player_to_move] (the record [LudoEnv] already has an
    attribute of that name). *)
Record Observation := mkObservation {
  board_state : Board;
  player_to_move : nat;
  action_mask : list Z;
  last_roll : Z;
}.

(** Membership in the space [__init__] declares for an observation:
    [Box(OUT_OF_BOUNDS, FINAL_SQUARE, (NUM_PLAYERS, NUM_TOKENS))] for the
    board, [Discrete(NUM_PLAYERS)] for the player, [Box(0, 1, (5,))] for the
    mask and [Discrete(7)] for the roll. *)
Definition in_observation_space (obs : Observation) : Prop :=
  board_shape (board_state obs)
  ∧ Forall (Forall (λ v, OUT_OF_BOUNDS <= v <= FINAL_SQUARE)) (board_state obs)
  ∧ (player_to_move obs < NUM_PLAYERS)%nat
  ∧ length (action_mask obs) = 5%nat
  ∧ Forall (λ b, 0 <= b <= 1) (action_mask obs)
  ∧ 0 <= last_roll obs < 7.

Section Engine.

(** ** PettingZoo collaborators

    [agent_selector agents] builds a selector and [selector_next] is its
    [next()] method, returning the selected agent together with the
    advanced selector. *)
Context {AgentSelector : Type}.
Variable agent_selector : list Player → AgentSelector.
Variable selector_next : AgentSelector → Player * AgentSelector.

Abbreviation LudoEnv := (LudoEnv AgentSelector).

(** [AECEnv._was_done_step], called by [step] for an agent that is done. *)
Variable _was_done_step : Z → LudoEnv → LudoEnv.

Definition set_state (st : Board) (self : LudoEnv) : LudoEnv :=
  mkLudoEnv st (current_player self) (dice_roll self) (agent_selection self)
    (_cumulative_rewards self) (_agent_selector self) (rewards self)
    (_dones self).

Definition set_dice_roll (r : Z) (self : LudoEnv) : LudoEnv :=
  mkLudoEnv (state self) (current_player self) r (agent_selection self)
    (_cumulative_rewards self) (_agent_selector self) (rewards self)
    (_dones self).

(** ** [reset]

    Both arguments are ignored by the method; [self.agents] is a copy of
    [possible_agents], so the dictionaries built from it have all four
    agents as keys.  [self.infos] is read by no method below and is left
    out. *)
Definition reset (seed : option Z) (self : LudoEnv) : LudoEnv :=
  {| state := replicate NUM_PLAYERS (replicate NUM_TOKENS OUT_OF_BOUNDS);
     current_player := RED;
     dice_roll := 0;
     _cumulative_rewards := λ _, 0;
     agent_selection := RED;
     _agent_selector := agent_selector possible_agents;
     rewards := λ _, 0;
     _dones := λ _, false |}.

(** ** [_calculate_new_position] *)
Definition _calculate_new_position (self : LudoEnv) (current_pos steps : Z) : Z :=
  if current_pos <? 52 then
    let new_pos := (current_pos + steps) `mod` 52 in
    let player_index := index (agent_selection self) possible_agents in
    if contains new_pos (home_stretches !!! player_index) then
      52 + (new_pos - (home_stretches !!! player_index) !!! 0%nat)
    else new_pos
  else if current_pos <? 57 then
    let new_pos := current_pos + steps in
    Z.min new_pos 58
  else current_pos.

(** ** [_check_capture]

    The inner loop over [range(NUM_TOKENS)] and the outer loop over
    [range(NUM_PLAYERS)]; both stop at the first matching cell. *)
Fixpoint capture_pieces (st : Board) (player : nat) (position : Z)
    (pieces : list nat) : option nat :=
  match pieces with
  | [] => None
  | piece :: rest =>
      if cell st player piece =? position then Some piece
      else capture_pieces st player position rest
  end.

Fixpoint capture_players (st : Board) (current_player_index : nat)
    (position : Z) (players : list nat) : option (nat * nat) :=
  match players with
  | [] => None
  | player :: rest =>
      if negb (player =? current_player_index)%nat then
        match capture_pieces st player position (seq 0 NUM_TOKENS) with
        | Some piece => Some (player, piece)
        | None => capture_players st current_player_index position rest
        end
      else capture_players st current_player_index position rest
  end.

(** Returns the method's result together with the instance after the
    write to [self.state]. *)
Definition _check_capture (self : LudoEnv) (position : Z)
    : option (nat * nat) * LudoEnv :=
  if contains position start_positions then (None, self)
  else
    let current_player_index := index (agent_selection self) possible_agents in
    match capture_players (state self) current_player_index position
            (seq 0 NUM_PLAYERS) with
    | Some (player, piece) =>
        (Some (player, piece),
         set_state (set_cell (state self) player piece OUT_OF_BOUNDS) self)
    | None => (None, self)
    end.

(** ** [_mask_actions] *)
Definition _mask_actions (self : LudoEnv) (agent : Player) : list Z :=
  let mask := replicate 5 0 in
  let player_index := index agent possible_agents in
  let mask :=
    if existsb (λ v, v =? OUT_OF_BOUNDS) (state self !!! player_index)
       && (dice_roll self =? 6)
    then <[0%nat := 1]> mask else mask in
  foldl (λ mask token,
           if (START_SQUARE <=? cell (state self) player_index token)
              && (cell (state self) player_index token
                    <=? FINAL_SQUARE - dice_roll self)
           then <[S token := 1]> mask else mask)
        mask (seq 0 NUM_TOKENS).

(** ** [_check_game_over] *)
Definition _check_game_over (self : LudoEnv) : bool :=
  existsb (λ player_pieces, forallb (λ v, v =? FINAL_SQUARE) player_pieces)
          (state self).

(** ** [step] *)

(** The loop of the "enter a token" branch: the first bench token of the
    player is put on the player's start square, then the loop breaks. *)
Fixpoint enter_token (st : Board) (player_index : nat) (tokens : list nat)
    : Board :=
  match tokens with
  | [] => st
  | token :: rest =>
      if cell st player_index token =? OUT_OF_BOUNDS then
        set_cell st player_index token (start_positions !!! player_index)
      else enter_token st player_index rest
  end.

(** The two action branches: the instance after them and the reward. *)
Definition play (action : Z) (self : LudoEnv) : LudoEnv * Z :=
  let player_index := index (agent_selection self) possible_agents in
  if (action =? 0) && (dice_roll self =? 6) then
    (set_state (enter_token (state self) player_index (seq 0 NUM_TOKENS)) self,
     0)
  else if (1 <=? action) && (action <=? 4) then
    let token := Z.to_nat (action - 1) in
    if negb (cell (state self) player_index token =? OUT_OF_BOUNDS) then
      let new_pos :=
        _calculate_new_position self (cell (state self) player_index token)
          (dice_roll self) in
      let self := set_state (set_cell (state self) player_index token new_pos)
                    self in
      let '(captured, self) := _check_capture self new_pos in
      let reward := 0 in
      let reward := if captured is Some _ then reward + 1 else reward in
      let reward := if new_pos =? FINAL_SQUARE then reward + 2 else reward in
      (self, reward)
    else (self, 0)
  else (self, 0).

(** [draw] is the value returned by [np.random.randint(1, 7)]. *)
Definition step (draw : Z) (action : Z) (self : LudoEnv) : LudoEnv :=
  if _dones self (agent_selection self) then _was_done_step action self
  else
    let agent := agent_selection self in
    let self := set_dice_roll draw self in
    let '(self, reward) := play action self in
    let rewards' := <[agent := reward]> (rewards self) in
    let cumulative' :=
      <[agent := _cumulative_rewards self agent + reward]>
        (_cumulative_rewards self) in
    if _check_game_over self then
      mkLudoEnv (state self) (current_player self) (dice_roll self)
        (agent_selection self) cumulative' (_agent_selector self) rewards'
        (λ _, true)
    else
      let '(next, selector) := selector_next (_agent_selector self) in
      mkLudoEnv (state self) (current_player self) (dice_roll self)
        next cumulative' selector rewards' (_dones self).

(** One call of [step]: the generator returns some value in [1, 6]. *)
Inductive Step (action : Z) (self : LudoEnv) : LudoEnv → Prop :=
  | Step_draw (draw : Z) :
      1 <= draw <= 6 → Step action self (step draw action self).

(** The instances a program can hold after its first [reset]. *)
Inductive reachable : LudoEnv → Prop :=
  | reachable_reset seed self : reachable (reset seed self)
  | reachable_step action self self' :
      reachable self → Step action self self' → reachable self'.

(** A sequence of calls of [step], given as pairs of the value drawn and
    the action passed. *)
Definition run (turns : list (Z * Z)) (self : LudoEnv) : LudoEnv :=
  foldl (λ self turn, step turn.1 turn.2 self) self turns.

(** Any number of calls of [step], with no [reset] in between. *)
Definition Steps : relation LudoEnv :=
  rtc (λ self self', ∃ action, Step action self self').

(** A sequence of calls of [step] with the given actions, each call
    drawing its own roll. *)
Inductive Plays : list Z → LudoEnv → LudoEnv → Prop :=
  | Plays_nil self : Plays [] self self
  | Plays_cons action actions self mid self' :
      Step action self mid → Plays actions mid self' →
      Plays (action :: actions) self self'.

(** Advancing one token several times in a row, and the positions it
    visits on the way. *)
Definition advance (self : LudoEnv) (rolls : list Z) (pos : Z) : Z :=
  foldl (_calculate_new_position self) pos rolls.

Fixpoint trajectory (self : LudoEnv) (rolls : list Z) (pos : Z) : list Z :=
  match rolls with
  | [] => []
  | roll :: rest =>
      let new_pos := _calculate_new_position self pos roll in
      new_pos :: trajectory self rest new_pos
  end.

(** What the framework's handler is relied on for: it leaves the board and
    the done-flags of the instance alone. *)
Definition handler_frame : Prop :=
  ∀ action self,
    state (_was_done_step action self) = state self
    ∧ ∀ agent, _dones (_was_done_step action self) agent = _dones self agent.

(** The handler also leaves the last roll alone. *)
Definition handler_keeps_roll : Prop :=
  ∀ action self, dice_roll (_was_done_step action self) = dice_roll self.

(** ** [observe] *)
Definition observe (self : LudoEnv) (agent : Player) : Observation :=
  {| board_state := state self;
     player_to_move := index (agent_selection self) possible_agents;
     action_mask := _mask_actions self agent;
     last_roll := dice_roll self |}.

(** ** The driver under [if __name__ == "__main__"]

    [samples k] is what iteration [k] draws: the value the generator
    returns inside [step] and the action sampled from the action space.
    [render] only prints and [close] does nothing.  The loop stops as soon
    as [all(env._dones.values())] holds. *)
Fixpoint main_loop (iterations : list nat) (samples : nat → Z * Z)
    (env : LudoEnv) : LudoEnv :=
  match iterations with
  | [] => env
  | k :: rest =>
      let env := step (samples k).1 (samples k).2 env in
      if forallb (_dones env) possible_agents then env
      else main_loop rest samples env
  end.

Definition main (samples : nat → Z * Z) (env : LudoEnv) : LudoEnv :=
  main_loop (seq 0 100) samples (reset None env).

(** * Basic facts *)

Lemma possible_agents_index (a : Player) :
  possible_agents !! index a possible_agents = Some a.
Proof. by destruct a. Qed.

Lemma index_lt (a : Player) : (index a possible_agents < NUM_PLAYERS)%nat.
Proof. destruct a; vm_compute; lia. Qed.

Lemma index_inj (a b : Player) :
  index a possible_agents = index b possible_agents → a = b.
Proof. by destruct a, b. Qed.

Lemma contains_spec (x : Z) (l : list Z) : contains x l = true ↔ x ∈ l.
Proof.
  unfold contains. induction l as [|y l IH]; cbn.
  - split; [done | by intros ?%elem_of_nil].
  - by rewrite orb_true_iff, IH, elem_of_cons, Z.eqb_eq.
Qed.

Lemma contains_false (x : Z) (l : list Z) : contains x l = false ↔ x ∉ l.
Proof. rewrite <- contains_spec. by destruct (contains x l). Qed.

Lemma range_elem (a b x : Z) : x ∈ range a b ↔ a <= x < b.
Proof. unfold range. rewrite elem_of_seqZ. lia. Qed.

Lemma head_lookup_total (l : list Z) (x : Z) :
  head l = Some x → l !!! 0%nat = x.
Proof. destruct l; cbn; congruence. Qed.

(** * Reading and writing board cells *)

Lemma board_shape_row (st : Board) (i : nat) :
  board_shape st → (i < NUM_PLAYERS)%nat → length (st !!! i) = NUM_TOKENS.
Proof.
  intros [Hlen Hrows] Hi.
  apply (Forall_lookup_total_1 _ _ i Hrows). by rewrite Hlen.
Qed.

Lemma set_cell_same (st : Board) (i j : nat) :
  set_cell st i j (cell st i j) = st.
Proof.
  unfold set_cell, cell.
  destruct (decide (i < length st)%nat) as [Hi|Hi].
  - apply list_insert_id. rewrite list_lookup_lookup_total_lt by done. f_equal.
    symmetry.
    destruct (decide (j < length (st !!! i))%nat) as [Hj|Hj].
    + apply list_insert_id. by apply list_lookup_lookup_total_lt.
    + apply list_insert_ge. lia.
  - apply list_insert_ge. lia.
Qed.

Lemma cell_set_cell_ne (st : Board) (i j : nat) (v : Z) (i' j' : nat) :
  (i, j) ≠ (i', j') → cell (set_cell st i j v) i' j' = cell st i' j'.
Proof.
  intros Hne. unfold cell, set_cell.
  destruct (decide (i = i')) as [<-|Hi].
  - destruct (decide (i < length st)%nat) as [Hlt|Hge].
    + rewrite list_lookup_total_insert_eq by done.
      apply list_lookup_total_insert_ne. congruence.
    + by rewrite list_insert_ge by lia.
  - by rewrite list_lookup_total_insert_ne.
Qed.

Lemma cell_set_cell_eq (st : Board) (i j : nat) (v : Z) :
  board_shape st → (i < NUM_PLAYERS)%nat → (j < NUM_TOKENS)%nat →
  cell (set_cell st i j v) i j = v.
Proof.
  intros Hshape Hi Hj. unfold cell, set_cell.
  pose proof (board_shape_row st i Hshape Hi) as Hrow.
  destruct Hshape as [Hlen _].
  rewrite list_lookup_total_insert_eq by lia.
  apply list_lookup_total_insert_eq. lia.
Qed.

Lemma set_cell_shape (st : Board) (i j : nat) (v : Z) :
  board_shape st → board_shape (set_cell st i j v).
Proof.
  intros Hshape. pose proof Hshape as [Hlen Hrows]. unfold set_cell. split.
  - by rewrite length_insert.
  - destruct (decide (i < length st)%nat) as [Hlt|Hge].
    + apply Forall_insert; [done|]. rewrite length_insert.
      apply board_shape_row; [done | lia].
    + by rewrite list_insert_ge by lia.
Qed.

Lemma set_cell_valid (st : Board) (i j : nat) (v : Z) :
  valid_board st → valid_position v → valid_board (set_cell st i j v).
Proof.
  intros Hvalid Hv. unfold set_cell, valid_board in *.
  destruct (decide (i < length st)%nat) as [Hlt|Hge].
  - apply Forall_insert; [done|]. apply Forall_insert; [|done].
    by apply (Forall_lookup_total_1 _ _ i Hvalid).
  - by rewrite list_insert_ge by lia.
Qed.

Lemma cell_valid (st : Board) (i j : nat) :
  board_shape st → valid_board st →
  (i < NUM_PLAYERS)%nat → (j < NUM_TOKENS)%nat →
  valid_position (cell st i j).
Proof.
  intros Hshape Hvalid Hi Hj. unfold cell.
  pose proof (board_shape_row st i Hshape Hi) as Hrow.
  destruct Hshape as [Hlen _].
  assert (Forall valid_position (st !!! i)) as Hall.
  { apply (Forall_lookup_total_1 _ _ i Hvalid). lia. }
  apply (Forall_lookup_total_1 _ _ j Hall). lia.
Qed.

(** A board of the right shape is determined by its sixteen cells. *)
Lemma board_ext (st st' : Board) :
  board_shape st → board_shape st' →
  (∀ i j, (i < NUM_PLAYERS)%nat → (j < NUM_TOKENS)%nat →
          cell st' i j = cell st i j) →
  st' = st.
Proof.
  intros Hs Hs' Hcells.
  apply (list_eq_same_length _ _ NUM_PLAYERS); [apply Hs | apply Hs' |].
  intros i row' row Hi Hrow' Hrow.
  pose proof (board_shape_row st i Hs Hi) as Hlen.
  pose proof (board_shape_row st' i Hs' Hi) as Hlen'.
  apply list_lookup_total_correct in Hrow', Hrow. subst row row'.
  apply (list_eq_same_length _ _ NUM_TOKENS); [done..|].
  intros j v' v Hj Hv' Hv.
  apply list_lookup_total_correct in Hv', Hv. subst v v'.
  by apply Hcells.
Qed.

(** * The position-advance function *)

Lemma calculate_on_loop (self : LudoEnv) (p roll : Z) :
  p < 52 →
  let table := home_stretches !!! index (agent_selection self) possible_agents in
  let candidate := (p + roll) `mod` 52 in
  _calculate_new_position self p roll =
    if bool_decide (candidate ∈ table)
    then 52 + (candidate - table !!! 0%nat) else candidate.
Proof.
  intros Hp table candidate. unfold _calculate_new_position.
  apply Z.ltb_lt in Hp. rewrite Hp. fold table candidate.
  case_bool_decide as Hin.
  - apply contains_spec in Hin. by rewrite Hin.
  - apply contains_false in Hin. by rewrite Hin.
Qed.




(** C2.  For a roll in [1, 6], with [table] the acting player's home-entry
    range and [first] its first value: from a position below 52 the result
    is [candidate = (p + roll) mod 52], translated to
    [52 + (candidate - first)] when [candidate] is in [table]; from a
    position in [52, 57) the result is [min (p + roll) 58]; from 58 the
    position is unchanged. *)
Theorem calculate_new_position_spec
    (self : LudoEnv) (p roll : Z) (table : list Z) (first : Z) :
  1 <= roll <= 6 →
  home_stretches !! index (agent_selection self) possible_agents = Some table →
  head table = Some first →
  let candidate := (p + roll) `mod` 52 in
  (p < 52 →
     (candidate ∈ table →
        _calculate_new_position self p roll = 52 + (candidate - first))
     ∧ (candidate ∉ table → _calculate_new_position self p roll = candidate))
  ∧ (52 <= p < 57 → _calculate_new_position self p roll = Z.min (p + roll) 58)
  ∧ (p = 58 → _calculate_new_position self p roll = p).
Proof.
  intros _ Htable Hfirst candidate. unfold _calculate_new_position.
  rewrite (list_lookup_total_correct _ _ _ Htable).
  rewrite (head_lookup_total _ _ Hfirst). fold candidate.
  split; [|split].
  - intros Hp. apply Z.ltb_lt in Hp. rewrite Hp. split.
    + intros Hin. apply contains_spec in Hin. by rewrite Hin.
    + intros Hout. apply contains_false in Hout. by rewrite Hout.
  - intros [Hlo Hhi].
    destruct (Z.ltb_spec p 52); [lia|].
    destruct (Z.ltb_spec p 57); [done | lia].
  - intros ->. done.
Qed.

Lemma home_entry_table (a : Player) :
  home_stretches !!! index a possible_agents =
    match a with
    | RED => range 51 57
    | GREEN => range 12 18
    | BLUE => range 25 31
    | YELLOW => range 38 44
    end.
Proof. by destruct a. Qed.

Lemma calculate_valid (self : LudoEnv) (p roll : Z) :
  0 <= p <= FINAL_SQUARE → 1 <= roll <= 6 →
  0 <= _calculate_new_position self p roll <= FINAL_SQUARE.
Proof.
  unfold FINAL_SQUARE. intros Hp Hroll.
  destruct (decide (p < 52)) as [Hlt|Hge].
  - rewrite calculate_on_loop by done.
    pose proof (Z.mod_pos_bound (p + roll) 52).
    case_bool_decide as Hin; [|lia].
    rewrite home_entry_table in *.
    destruct (agent_selection self); apply range_elem in Hin;
      change (range ?a ?b !!! 0%nat) with a; lia.
  - unfold _calculate_new_position.
    destruct (Z.ltb_spec p 52); [lia|].
    destruct (Z.ltb_spec p 57); lia.
Qed.

(** * Capture detection *)

Lemma capture_pieces_Some (st : Board) (player : nat) (position : Z)
    (pieces : list nat) (piece : nat) :
  capture_pieces st player position pieces = Some piece →
  piece ∈ pieces ∧ cell st player piece = position.
Proof.
  induction pieces as [|q pieces IH]; cbn [capture_pieces]; [done|].
  destruct (Z.eqb_spec (cell st player q) position) as [Heq|Hne].
  - intros [= <-]. split; [left | done].
  - intros [Hin Hcell]%IH. split; [by right | done].
Qed.

Lemma capture_pieces_None (st : Board) (player : nat) (position : Z)
    (pieces : list nat) :
  capture_pieces st player position pieces = None →
  ∀ piece, piece ∈ pieces → cell st player piece ≠ position.
Proof.
  induction pieces as [|q pieces IH]; cbn [capture_pieces].
  - by intros _ piece ?%elem_of_nil.
  - destruct (Z.eqb_spec (cell st player q) position) as [Heq|Hne]; [done|].
    intros Hnone piece [->|Hin]%elem_of_cons; [done | by apply IH].
Qed.

Lemma capture_players_Some (st : Board) (cur : nat) (position : Z)
    (players : list nat) (player piece : nat) :
  capture_players st cur position players = Some (player, piece) →
  player ∈ players ∧ player ≠ cur ∧ (piece < NUM_TOKENS)%nat
  ∧ cell st player piece = position.
Proof.
  induction players as [|q players IH]; cbn [capture_players]; [done|].
  destruct (Nat.eqb_spec q cur) as [Heq|Hne]; cbn [negb].
  - intros (Hin & ? & ? & ?)%IH. split; [by right | done].
  - destruct (capture_pieces st q position (seq 0 NUM_TOKENS)) as [pc|] eqn:Hpc.
    + intros [= <- <-]. apply capture_pieces_Some in Hpc as [Hin Hcell].
      apply elem_of_seq in Hin. split; [left|]. repeat split; [done | lia | done].
    + intros (Hin & ? & ? & ?)%IH. split; [by right | done].
Qed.

Lemma capture_players_None (st : Board) (cur : nat) (position : Z)
    (players : list nat) :
  capture_players st cur position players = None →
  ∀ player piece, player ∈ players → player ≠ cur → (piece < NUM_TOKENS)%nat →
                  cell st player piece ≠ position.
Proof.
  induction players as [|q players IH]; cbn [capture_players].
  - by intros _ player piece ?%elem_of_nil.
  - destruct (Nat.eqb_spec q cur) as [Heq|Hne]; cbn [negb].
    + intros Hnone player piece [->|Hin]%elem_of_cons Hcur Hpiece; [done|].
      by apply IH.
    + destruct (capture_pieces st q position (seq 0 NUM_TOKENS)) as [pc|] eqn:Hpc;
        [done|].
      intros Hnone player piece [->|Hin]%elem_of_cons Hcur Hpiece.
      * apply (capture_pieces_None _ _ _ _ Hpc). apply elem_of_seq. lia.
      * by apply IH.
Qed.

(** The two outcomes of [_check_capture]: nothing happens, or the first
    matching token of another player is sent to the bench. *)
Lemma check_capture_cases (self : LudoEnv) (position : Z) :
  let cur := index (agent_selection self) possible_agents in
  _check_capture self position = (None, self)
  ∨ ∃ player piece,
      player ≠ cur ∧ (player < NUM_PLAYERS)%nat ∧ (piece < NUM_TOKENS)%nat
      ∧ cell (state self) player piece = position
      ∧ (position ∉ start_positions)
      ∧ _check_capture self position =
          (Some (player, piece),
           set_state (set_cell (state self) player piece OUT_OF_BOUNDS) self).
Proof.
  intros cur. unfold _check_capture. fold cur.
  destruct (contains position start_positions) eqn:Hstart; [by left|].
  apply contains_false in Hstart.
  destruct (capture_players (state self) cur position (seq 0 NUM_PLAYERS))
    as [[player piece]|] eqn:Hcap; [|by left].
  right. exists player, piece.
  apply capture_players_Some in Hcap as (Hin & Hne & Hpiece & Hcell).
  apply elem_of_seq in Hin. repeat split; [done | lia | done..].
Qed.

(** * Entering a token *)

Lemma enter_token_cases (st : Board) (i : nat) (tokens : list nat) :
  (enter_token st i tokens = st
   ∧ ∀ t, t ∈ tokens → cell st i t ≠ OUT_OF_BOUNDS)
  ∨ ∃ t, t ∈ tokens ∧ cell st i t = OUT_OF_BOUNDS
         ∧ enter_token st i tokens = set_cell st i t (start_positions !!! i).
Proof.
  induction tokens as [|q tokens IH]; cbn [enter_token].
  - left. split; [done | by intros t ?%elem_of_nil].
  - destruct (Z.eqb_spec (cell st i q) OUT_OF_BOUNDS) as [Heq|Hne].
    + right. exists q. split; [left | done].
    + destruct IH as [[Hsame Hall]|(t & Hin & Hcell & Hset)].
      * left. split; [done|]. intros t [->|Hin]%elem_of_cons; [done | by apply Hall].
      * right. exists t. split; [by right | done].
Qed.

Lemma enter_token_first (st : Board) (i a n t : nat) :
  (a ≤ t < a + n)%nat →
  cell st i t = OUT_OF_BOUNDS →
  (∀ t', (a ≤ t' < t)%nat → cell st i t' ≠ OUT_OF_BOUNDS) →
  enter_token st i (seq a n) = set_cell st i t (start_positions !!! i).
Proof.
  revert a. induction n as [|n IH]; intros a Hrange Hcell Hfirst; [lia|].
  cbn [seq enter_token].
  destruct (Z.eqb_spec (cell st i a) OUT_OF_BOUNDS) as [Heq|Hne].
  - destruct (decide (a = t)) as [->|Hat]; [done|].
    exfalso. apply (Hfirst a); [lia | done].
  - destruct (decide (a = t)) as [->|Hat]; [done|].
    apply IH; [lia | done |]. intros t' Ht'. apply Hfirst. lia.
Qed.

(** * The action branches of [step] *)

(** The action branches write to the board only. *)
Lemma play_frame (action : Z) (self : LudoEnv) :
  (play action self).1 = set_state (state (play action self).1) self.
Proof.
  unfold play. destruct self as [st cur dice agent cumulative selector rew dones].
  cbn [state dice_roll agent_selection].
  destruct ((action =? 0) && (dice =? 6)); [done|].
  destruct ((1 <=? action) && (action <=? 4)); [|done].
  destruct (negb _); [|done].
  match goal with
  | |- context [_check_capture ?s ?p] =>
      destruct (check_capture_cases s p) as [Hc|(pl & pc & _ & _ & _ & _ & _ & Hc)];
      rewrite Hc
  end; done.
Qed.

(** The boards the action branches can produce: the board is unchanged, or
    a bench token entered, or a token moved, possibly sending a token of
    another player to the bench. *)
Lemma play_cases (action : Z) (self : LudoEnv) :
  let i := index (agent_selection self) possible_agents in
  let st := state self in
  let st' := state (play action self).1 in
  st' = st
  ∨ (∃ t, action = 0 ∧ dice_roll self = 6 ∧ (t < NUM_TOKENS)%nat
          ∧ cell st i t = OUT_OF_BOUNDS
          ∧ st' = set_cell st i t (start_positions !!! i))
  ∨ (∃ t, action = Z.of_nat t + 1 ∧ (t < NUM_TOKENS)%nat
          ∧ cell st i t ≠ OUT_OF_BOUNDS
          ∧ let new_pos :=
              _calculate_new_position self (cell st i t) (dice_roll self) in
            let st1 := set_cell st i t new_pos in
            st' = st1
            ∨ ∃ player piece,
                player ≠ i ∧ (player < NUM_PLAYERS)%nat
                ∧ (piece < NUM_TOKENS)%nat
                ∧ cell st1 player piece = new_pos
                ∧ st' = set_cell st1 player piece OUT_OF_BOUNDS).
Proof.
  intros i st st'. subst st'. unfold play. fold i st.
  destruct (Z.eqb_spec action 0) as [Ha|Ha]; cbn [andb].
  - destruct (Z.eqb_spec (dice_roll self) 6) as [Hd|Hd].
    + cbn [fst state set_state].
      destruct (enter_token_cases st i (seq 0 NUM_TOKENS))
        as [[Hsame _]|(t & Hin & Hcell & Hset)]; [by left|].
      right; left. exists t. apply elem_of_seq in Hin.
      repeat split; [done.. | lia | done | done].
    + subst action. by left.
  - destruct (Z.leb_spec 1 action) as [H1|H1]; cbn [andb]; [|by left].
    destruct (Z.leb_spec action 4) as [H4|H4]; [|by left].
    destruct (Z.eqb_spec (cell st i (Z.to_nat (action - 1))) OUT_OF_BOUNDS)
      as [Hb|Hb]; cbn [negb]; [by left|].
    right; right. exists (Z.to_nat (action - 1)).
    split; [lia|]. split; [unfold NUM_TOKENS; lia|]. split; [done|].
    match goal with
    | |- context [_check_capture ?s ?p] =>
        destruct (check_capture_cases s p)
          as [Hc|(pl & pc & Hpl & Hlt & Hpc & Hcell & _ & Hc)];
        rewrite Hc
    end.
    + by left.
    + right. by exists pl, pc.
Qed.

(** * One call of [step] *)

Lemma step_done (draw action : Z) (self : LudoEnv) :
  _dones self (agent_selection self) = true →
  step draw action self = _was_done_step action self.
Proof. intros Hdone. unfold step. by rewrite Hdone. Qed.

Lemma step_live (draw action : Z) (self : LudoEnv) :
  _dones self (agent_selection self) = false →
  let played := play action (set_dice_roll draw self) in
  state (step draw action self) = state played.1
  ∧ dice_roll (step draw action self) = draw
  ∧ rewards (step draw action self) (agent_selection self) = played.2
  ∧ _dones (step draw action self) =
      (if _check_game_over played.1 then λ _, true else _dones self).
Proof.
  intros Hlive played. unfold step. rewrite Hlive.
  pose proof (play_frame action (set_dice_roll draw self)) as Hframe.
  fold played in Hframe |- *.
  destruct played as [self' reward]. cbn [fst snd] in *.
  rewrite Hframe. cbn [set_state set_dice_roll state dice_roll agent_selection
    _dones rewards _cumulative_rewards _agent_selector current_player].
  destruct (_check_game_over _);
    [|destruct (selector_next (_agent_selector self)) as [next selector]];
    cbn [state dice_roll rewards _dones]; by rewrite fn_lookup_insert.
Qed.

(** C3.  Red's home-entry table is [51 .. 56]; five of its six values are
    outside the shared loop [0, 51].  The candidate [(p + roll) mod 52] is
    always in [0, 51], so for Red the redirection into the home stretch
    (a result of 52 or more) happens exactly when the candidate is 51 and
    then gives 52, while for each other player it happens on a window of
    six candidates. *)
Theorem red_home_entry_single_cell (self : LudoEnv) (p roll : Z) :
  p < 52 →
  let candidate := (p + roll) `mod` 52 in
  let new_pos := _calculate_new_position self p roll in
  home_stretches !!! index RED possible_agents = [51; 52; 53; 54; 55; 56]
  ∧ filter (λ v, ¬ (0 <= v <= 51)) [51; 52; 53; 54; 55; 56]
    = [52; 53; 54; 55; 56]
  ∧ 0 <= candidate <= 51
  ∧ match agent_selection self with
    | RED => (52 <= new_pos ↔ candidate = 51)
             ∧ (candidate = 51 → new_pos = 52)
             ∧ (candidate ≠ 51 → new_pos = candidate)
    | GREEN => 52 <= new_pos ↔ 12 <= candidate <= 17
    | BLUE => 52 <= new_pos ↔ 25 <= candidate <= 30
    | YELLOW => 52 <= new_pos ↔ 38 <= candidate <= 43
    end.
Proof.
  intros Hp candidate new_pos.
  assert (Hcand : 0 <= candidate <= 51).
  { unfold candidate. pose proof (Z.mod_pos_bound (p + roll) 52). lia. }
  split; [done|]. split; [done|]. split; [done|].
  unfold new_pos. rewrite (calculate_on_loop self p roll Hp). fold candidate.
  destruct (agent_selection self); cbn [index possible_agents];
    case_bool_decide as Hin;
    match type of Hin with
    | context [home_stretches !!! ?i] =>
        change (home_stretches !!! i) with (range 51 57) in * ||
        change (home_stretches !!! i) with (range 12 18) in * ||
        change (home_stretches !!! i) with (range 25 31) in * ||
        change (home_stretches !!! i) with (range 38 44) in *
    end;
    rewrite range_elem in Hin;
    match goal with
    | |- context [range ?a ?b !!! 0%nat] =>
        change (range a b !!! 0%nat) with a
    | _ => idtac
    end; lia.
Qed.

(** C10.  For Green, Blue and Yellow the home-entry window starts one cell
    before the player's start square, so a token on its own start square
    is sent into the home stretch by every roll from 1 to 4, to
    [52 + (start + roll - first)]; rolling 1 and then 4 takes a token from
    its start square to the terminal cell. *)
Theorem start_square_in_home_entry_window (self : LudoEnv) (roll : Z) :
  agent_selection self ≠ RED →
  1 <= roll <= 4 →
  let i := index (agent_selection self) possible_agents in
  let start := start_positions !!! i in
  let window := home_stretches !!! i in
  let first := window !!! 0%nat in
  (start = 13 ∧ window = [12; 13; 14; 15; 16; 17]
   ∨ start = 26 ∧ window = [25; 26; 27; 28; 29; 30]
   ∨ start = 39 ∧ window = [38; 39; 40; 41; 42; 43])
  ∧ first = start - 1
  ∧ _calculate_new_position self start roll = 52 + (start + roll - first)
  ∧ 52 <= _calculate_new_position self start roll <= 57
  ∧ trajectory self [1; 4] start = [54; FINAL_SQUARE].
Proof.
  intros Hnot Hroll i start window first.
  assert (roll = 1 ∨ roll = 2 ∨ roll = 3 ∨ roll = 4) as Hr by lia.
  destruct self as [st cur dice agent cumulative selector rew dones].
  cbn [agent_selection] in *. subst first window start i.
  destruct agent; [done| | |];
    (split; [auto|]); (split; [done|]);
    destruct Hr as [->|[->|[->| ->]]]; split; try done; split; done.
Qed.

(** * Entering a token from the bench *)

(** C5.  When action 0 is applied by an agent that is not done: with a
    roll of 6 and a bench token, the lowest-index bench token of the
    acting player goes to that player's start square and every other cell
    of the board keeps its value; with another roll, or with no bench
    token, the board is left as it was. *)
Theorem enter_action_spec (self : LudoEnv) (draw : Z) :
  board_shape (state self) →
  _dones self (agent_selection self) = false →
  let i := index (agent_selection self) possible_agents in
  let st := state self in
  let st' := state (step draw 0 self) in
  (∀ t, draw = 6 → (t < NUM_TOKENS)%nat → cell st i t = OUT_OF_BOUNDS →
        (∀ t', (t' < t)%nat → cell st i t' ≠ OUT_OF_BOUNDS) →
        cell st' i t = start_positions !!! i
        ∧ ∀ p k, (p, k) ≠ (i, t) → cell st' p k = cell st p k)
  ∧ (draw ≠ 6 ∨ (∀ t, (t < NUM_TOKENS)%nat → cell st i t ≠ OUT_OF_BOUNDS) →
     st' = st).
Proof.
  intros Hshape Hlive i st st'.
  destruct (step_live draw 0 self Hlive) as (Hstate & _).
  subst st'. rewrite Hstate. unfold play.
  cbn [set_dice_roll state dice_roll agent_selection]. fold i st.
  change (0 =? 0) with true. cbn [andb]. split.
  - intros t -> Ht Hbench Hfirst. change (6 =? 6) with true.
    cbn [fst state set_state].
    rewrite (enter_token_first st i 0 NUM_TOKENS t); [|lia|done|].
    + split.
      * apply cell_set_cell_eq; [done | apply index_lt | done].
      * intros p k Hne. by apply cell_set_cell_ne.
    + intros t' Ht'. apply Hfirst. lia.
  - intros [Hdraw|Hnone].
    + destruct (Z.eqb_spec draw 6); [done|]. done.
    + destruct (draw =? 6); [|done]. cbn [fst state set_state].
      destruct (enter_token_cases st i (seq 0 NUM_TOKENS))
        as [[Hsame _]|(t & Hin & Hcell & _)]; [done|].
      apply elem_of_seq in Hin. exfalso. apply (Hnone t); [lia | done].
Qed.

(** * Reachable boards *)

Lemma start_position_valid (a : Player) :
  valid_position (start_positions !!! index a possible_agents).
Proof.
  right; left. unfold on_loop. destruct a; vm_compute; split; congruence.
Qed.

Lemma play_preserves (action : Z) (self : LudoEnv) :
  1 <= dice_roll self <= 6 →
  board_shape (state self) → valid_board (state self) →
  board_shape (state (play action self).1)
  ∧ valid_board (state (play action self).1).
Proof.
  intros Hdice Hshape Hvalid.
  destruct (play_cases action self)
    as [->|[(t & _ & _ & _ & _ & ->)|(t & _ & Ht & Hcell & Hmove)]].
  - done.
  - split; [by apply set_cell_shape|].
    apply set_cell_valid; [done | apply start_position_valid].
  - cbn zeta in Hmove.
    set (i := index (agent_selection self) possible_agents) in *.
    set (new_pos := _calculate_new_position self (cell (state self) i t)
                      (dice_roll self)) in *.
    assert (valid_position new_pos) as Hnew.
    { pose proof (cell_valid (state self) i t Hshape Hvalid
                    (index_lt _) Ht) as Hold.
      assert (0 <= cell (state self) i t <= FINAL_SQUARE) as Hrange.
      { unfold valid_position, on_bench, on_loop, on_home, FINAL_SQUARE in *.
        lia. }
      pose proof (calculate_valid self _ _ Hrange Hdice) as Hcalc.
      fold new_pos in Hcalc.
      unfold valid_position, on_bench, on_loop, on_home, FINAL_SQUARE in *.
      lia. }
    destruct Hmove as [->|(pl & pc & _ & _ & _ & _ & ->)].
    + split; [by apply set_cell_shape | by apply set_cell_valid].
    + split; [by do 2 apply set_cell_shape|].
      apply set_cell_valid; [by apply set_cell_valid | by left].
Qed.

Lemma step_preserves (draw action : Z) (self : LudoEnv) :
  handler_frame → 1 <= draw <= 6 →
  board_shape (state self) → valid_board (state self) →
  board_shape (state (step draw action self))
  ∧ valid_board (state (step draw action self)).
Proof.
  intros Hframe Hdraw Hshape Hvalid.
  destruct (_dones self (agent_selection self)) eqn:Hdone.
  - rewrite step_done by done. by destruct (Hframe action self) as [-> _].
  - destruct (step_live draw action self Hdone) as (-> & _).
    by apply play_preserves.
Qed.

Lemma reachable_board (self : LudoEnv) :
  handler_frame → reachable self →
  board_shape (state self) ∧ valid_board (state self).
Proof.
  intros Hframe Hreach. induction Hreach as [seed self|action self self' _ IH Hstep].
  - cbn [reset state]. split.
    + split; [done|]. by do 4 constructor.
    + do 4 (constructor; [do 4 (constructor; [by left|]); constructor|]).
      constructor.
  - destruct IH as [Hshape Hvalid]. destruct Hstep as [draw Hdraw].
    by apply step_preserves.
Qed.

(** C6.  In every instance reachable by calls of [reset] and [step], the
    board has four rows of four cells and every cell holds a position of
    exactly one of the three domains: the bench value -1, the shared loop
    [0, 51], or the home stretch and terminal cell [52, 58]. *)
Theorem reachable_positions_valid (self : LudoEnv) :
  handler_frame → reachable self →
  board_shape (state self)
  ∧ valid_board (state self)
  ∧ ∀ i j, (i < NUM_PLAYERS)%nat → (j < NUM_TOKENS)%nat →
      let v := cell (state self) i j in
      (v = -1 ∨ 0 <= v <= 51 ∨ 52 <= v <= 58)
      ∧ (on_bench v ∧ ¬ on_loop v ∧ ¬ on_home v
         ∨ ¬ on_bench v ∧ on_loop v ∧ ¬ on_home v
         ∨ ¬ on_bench v ∧ ¬ on_loop v ∧ on_home v).
Proof.
  intros Hframe Hreach.
  destruct (reachable_board self Hframe Hreach) as [Hshape Hvalid].
  split; [done|]. split; [done|]. intros i j Hi Hj v.
  pose proof (cell_valid (state self) i j Hshape Hvalid Hi Hj) as Hv.
  fold v in Hv.
  unfold valid_position, on_bench, on_loop, on_home, OUT_OF_BOUNDS,
    FINAL_SQUARE in *. lia.
Qed.

(** * Termination *)

Lemma existsb_lookup_total {A : Type} `{!Inhabited A} (f : A → bool)
    (l : list A) :
  existsb f l = true ↔ ∃ i, (i < length l)%nat ∧ f (l !!! i) = true.
Proof.
  induction l as [|x l IH]; cbn [existsb length].
  - split; [done | intros (i & Hi & _); lia].
  - rewrite orb_true_iff, IH. split.
    + intros [Hx|(i & Hi & Hf)]; [exists 0%nat | exists (S i)];
        (split; [lia | done]).
    + intros ([|i] & Hi & Hf); [by left|]. right. exists i. split; [lia | done].
Qed.

Lemma forallb_lookup_total {A : Type} `{!Inhabited A} (f : A → bool)
    (l : list A) :
  forallb f l = true ↔ ∀ i, (i < length l)%nat → f (l !!! i) = true.
Proof.
  induction l as [|x l IH]; cbn [forallb length].
  - split; [intros _ i Hi; lia | done].
  - rewrite andb_true_iff, IH. split.
    + intros [Hx Hl] [|i] Hi; [done|]. apply Hl. lia.
    + intros Hall. split; [apply (Hall 0%nat); lia|].
      intros i Hi. apply (Hall (S i)). lia.
Qed.

Lemma check_game_over_spec (self : LudoEnv) :
  board_shape (state self) →
  _check_game_over self = true
  ↔ ∃ i, (i < NUM_PLAYERS)%nat
         ∧ ∀ j, (j < NUM_TOKENS)%nat → cell (state self) i j = FINAL_SQUARE.
Proof.
  intros Hshape. unfold _check_game_over. rewrite existsb_lookup_total.
  pose proof Hshape as [Hlen _]. rewrite Hlen.
  split; intros (i & Hi & Hrow); exists i; (split; [done|]);
    pose proof (board_shape_row _ i Hshape Hi) as Hrowlen.
  - rewrite forallb_lookup_total, Hrowlen in Hrow.
    intros j Hj. by apply Z.eqb_eq, Hrow.
  - rewrite forallb_lookup_total, Hrowlen.
    intros j Hj. by apply Z.eqb_eq, Hrow.
Qed.

Lemma check_game_over_state (self self' : LudoEnv) :
  state self' = state self → _check_game_over self' = _check_game_over self.
Proof. unfold _check_game_over. by intros ->. Qed.

(** Between calls, every done-flag tells whether the game is over. *)
Lemma reachable_dones (self : LudoEnv) :
  handler_frame → reachable self →
  ∀ agent, _dones self agent = _check_game_over self.
Proof.
  intros Hframe Hreach.
  induction Hreach as [seed self|action self self' _ IH Hstep]; [done|].
  destruct Hstep as [draw Hdraw]. intros agent.
  destruct (_dones self (agent_selection self)) eqn:Hdone.
  - rewrite step_done by done. destruct (Hframe action self) as [Hst Hdn].
    by rewrite Hdn, (check_game_over_state _ _ Hst).
  - destruct (step_live draw action self Hdone) as (Hst & _ & _ & Hdn).
    rewrite Hdn, (check_game_over_state _ _ Hst).
    destruct (_check_game_over (play action (set_dice_roll draw self)).1);
      [done|].
    by rewrite IH, <- (IH (agent_selection self)).
Qed.

Lemma steps_keep_done (self self' : LudoEnv) :
  handler_frame → Steps self self' →
  (∀ agent, _dones self agent = true) →
  ∀ agent, _dones self' agent = true.
Proof.
  intros Hframe Hsteps.
  induction Hsteps as [self|self mid self' [action [draw _]] _ IH]; [done|].
  intros Hall. apply IH. intros agent.
  rewrite step_done by apply Hall.
  destruct (Hframe action self) as [_ Hdn]. rewrite Hdn. apply Hall.
Qed.

Lemma play_shape (action : Z) (self : LudoEnv) :
  board_shape (state self) → board_shape (state (play action self).1).
Proof.
  intros Hshape.
  destruct (play_cases action self)
    as [->|[(t & _ & _ & _ & _ & ->)|(t & _ & _ & _ & Hmove)]].
  - done.
  - by apply set_cell_shape.
  - cbn zeta in Hmove.
    destruct Hmove as [->|(pl & pc & _ & _ & _ & _ & ->)].
    + by apply set_cell_shape.
    + by do 2 apply set_cell_shape.
Qed.

(** [step] never takes a flag back. *)
Lemma step_keeps_true_flag (draw action : Z) (self : LudoEnv)
    (agent : Player) :
  handler_frame → _dones self agent = true →
  _dones (step draw action self) agent = true.
Proof.
  intros Hframe Hflag.
  destruct (_dones self (agent_selection self)) eqn:Hdone.
  - rewrite step_done by done. destruct (Hframe action self) as [_ Hdn].
    by rewrite Hdn.
  - destruct (step_live draw action self Hdone) as (_ & _ & _ & ->).
    by destruct (_check_game_over _).
Qed.

Lemma steps_keep_flag (self self' : LudoEnv) (agent : Player) :
  handler_frame → Steps self self' →
  _dones self agent = true → _dones self' agent = true.
Proof.
  intros Hframe Hsteps.
  induction Hsteps as [self|self mid self' [action [draw _]] _ IH]; [done|].
  intros Hflag. by apply IH, step_keeps_true_flag.
Qed.

(** C7.  A call of [step] by an agent that is not done, on any 4x4 board,
    sets all four done-flags at once when the board it leaves has some
    player with all four tokens on cell 58, and otherwise leaves every
    flag as it was.  Provided the framework's handler for done agents
    leaves the board and the flags alone, a flag that is true stays true
    over any further calls of [step], whoever moves, and in every
    reachable instance the game is over exactly when
    some player has all four tokens on cell 58, every done-flag has that
    value, and once the game is over every call of [step] is handed to the
    framework's handler for done agents. *)
Theorem game_over_sets_all_flags (self : LudoEnv) :
  (∀ draw action,
     board_shape (state self) → _dones self (agent_selection self) = false →
     let self' := step draw action self in
     let finished :=
       ∃ i, (i < NUM_PLAYERS)%nat
            ∧ ∀ j, (j < NUM_TOKENS)%nat →
                   cell (state self') i j = FINAL_SQUARE in
     (finished → ∀ agent, _dones self' agent = true)
     ∧ (¬ finished → ∀ agent, _dones self' agent = _dones self agent))
  ∧ (handler_frame →
     (∀ self' agent, Steps self self' → _dones self agent = true →
                     _dones self' agent = true)
     ∧ (reachable self →
        (_check_game_over self = true
         ↔ ∃ i, (i < NUM_PLAYERS)%nat
                ∧ ∀ j, (j < NUM_TOKENS)%nat →
                       cell (state self) i j = FINAL_SQUARE)
        ∧ (∀ agent, _dones self agent = _check_game_over self)
        ∧ (∀ draw action,
             1 <= draw <= 6 → _dones self (agent_selection self) = false →
             let self' := step draw action self in
             (_check_game_over self' = true →
              ∀ agent, _dones self' agent = true)
             ∧ (_check_game_over self' = false →
                ∀ agent, _dones self' agent = false))
        ∧ (_check_game_over self = true →
           ∀ draw action,
             step draw action self = _was_done_step action self))).
Proof.
  split.
  - intros draw action Hshape Hlive self' finished. subst self' finished.
    destruct (step_live draw action self Hlive) as (Hst & _ & _ & Hdn).
    assert (board_shape (state (step draw action self))) as Hshape'.
    { rewrite Hst. by apply play_shape. }
    rewrite <- (check_game_over_spec _ Hshape'), Hdn.
    rewrite (check_game_over_state _ _ Hst).
    destruct (_check_game_over _); split; done.
  - intros Hframe. split.
    { intros self' agent Hsteps Hflag. by apply (steps_keep_flag self self'). }
    intros Hreach.
    destruct (reachable_board self Hframe Hreach) as [Hshape _].
    pose proof (reachable_dones self Hframe Hreach) as Hflags.
    split; [by apply check_game_over_spec|]. split; [done|]. split.
    + intros draw action Hdraw Hlive self'.
      assert (reachable self') as Hreach'.
      { eapply reachable_step; [done | by constructor]. }
      pose proof (reachable_dones self' Hframe Hreach') as Hflags'.
      split; intros Hover agent; by rewrite Hflags'.
    + intros Hover draw action. apply step_done. by rewrite Hflags.
Qed.

(** * The legality mask *)

Lemma mask_fold_length (c : nat → bool) (tokens : list nat) (m : list Z) :
  length (foldl (λ mask token, if c token then <[S token := 1]> mask else mask)
            m tokens) = length m.
Proof.
  revert m. induction tokens as [|t tokens IH]; intros m; cbn [foldl]; [done|].
  rewrite IH. destruct (c t); [apply length_insert | done].
Qed.

Lemma mask_fold_bits (c : nat → bool) (tokens : list nat) (m : list Z) :
  Forall (λ b, b = 0 ∨ b = 1) m →
  Forall (λ b, b = 0 ∨ b = 1)
    (foldl (λ mask token, if c token then <[S token := 1]> mask else mask)
       m tokens).
Proof.
  revert m. induction tokens as [|t tokens IH]; intros m Hm; cbn [foldl]; [done|].
  apply IH. destruct (c t); [|done]. apply Forall_insert; [done | by right].
Qed.

Lemma mask_fold_lookup (c : nat → bool) (tokens : list nat) (m : list Z)
    (j : nat) :
  (j < length m)%nat →
  foldl (λ mask token, if c token then <[S token := 1]> mask else mask)
    m tokens !!! j
  = if existsb (λ t, (S t =? j)%nat && c t) tokens then 1 else m !!! j.
Proof.
  revert m. induction tokens as [|t tokens IH]; intros m Hj;
    cbn [foldl existsb]; [done|].
  rewrite IH by (destruct (c t); [by rewrite length_insert | done]).
  destruct (existsb _ tokens); [by rewrite orb_true_r|]. rewrite orb_false_r.
  destruct (Nat.eqb_spec (S t) j) as [<-|Hne]; cbn [andb]; [|].
  - destruct (c t); [|done]. by apply list_lookup_total_insert_eq.
  - destruct (c t); [|done]. by apply list_lookup_total_insert_ne.
Qed.

(** C4.  The mask has five slots, each 0 or 1.  Slot 0 is 1 exactly when
    the roll is 6 and some token of the player is on the bench; slot
    [k + 1] is 1 exactly when token [k] is not on the bench and its
    position is at most [58 - roll]. *)
Theorem mask_actions_spec (self : LudoEnv) (agent : Player) :
  board_shape (state self) → valid_board (state self) →
  let i := index agent possible_agents in
  let mask := _mask_actions self agent in
  length mask = 5%nat
  ∧ Forall (λ b, b = 0 ∨ b = 1) mask
  ∧ (mask !!! 0%nat = 1
     ↔ dice_roll self = 6
       ∧ ∃ t, (t < NUM_TOKENS)%nat ∧ cell (state self) i t = OUT_OF_BOUNDS)
  ∧ ∀ k, (k < NUM_TOKENS)%nat →
      (mask !!! S k = 1
       ↔ cell (state self) i k ≠ OUT_OF_BOUNDS
         ∧ cell (state self) i k <= FINAL_SQUARE - dice_roll self).
Proof.
  intros Hshape Hvalid i mask. subst mask. unfold _mask_actions. fold i.
  set (c := λ token : nat,
         (START_SQUARE <=? cell (state self) i token)
         && (cell (state self) i token <=? FINAL_SQUARE - dice_roll self)).
  set (enter := existsb (λ v, v =? OUT_OF_BOUNDS) (state self !!! i)
                && (dice_roll self =? 6)).
  set (m0 := if enter then <[0%nat:=1]> (replicate 5 0) else replicate 5 0).
  assert (length m0 = 5%nat) as Hlen0 by (subst m0; by destruct enter).
  change (foldl _ m0 (seq 0 NUM_TOKENS)) with
    (foldl (λ mask token, if c token then <[S token := 1]> mask else mask)
       m0 (seq 0 NUM_TOKENS)).
  split; [by rewrite mask_fold_length|]. split.
  { apply mask_fold_bits. subst m0.
    destruct enter; repeat (constructor; [by auto|]); constructor. }
  split.
  - rewrite mask_fold_lookup by lia. cbn [seq existsb Nat.eqb andb orb].
    assert (m0 !!! 0%nat = 1 ↔ enter = true) as ->.
    { subst m0. by destruct enter. }
    subst enter. rewrite andb_true_iff, existsb_lookup_total, Z.eqb_eq.
    rewrite (board_shape_row _ i Hshape (index_lt agent)).
    split; intros [H1 H2]; (split; [|done]) || (split; [done|]);
      destruct H1 as (t & Ht & Hcell) || destruct H2 as (t & Ht & Hcell);
      exists t; (split; [done|]); by apply Z.eqb_eq.
  - intros k Hk. rewrite mask_fold_lookup by (unfold NUM_TOKENS in Hk; lia).
    assert (existsb (λ t, (S t =? S k)%nat && c t) (seq 0 NUM_TOKENS) = c k)
      as ->.
    { unfold NUM_TOKENS in *.
      destruct k as [|[|[|[|k]]]]; [| | | |lia]; cbn [seq existsb Nat.eqb andb orb];
        by rewrite ?orb_false_r. }
    assert (m0 !!! S k = 0) as ->.
    { subst m0. unfold NUM_TOKENS in *.
      destruct enter; by destruct k as [|[|[|[|k]]]]; [| | | |lia]. }
    pose proof (cell_valid (state self) i k Hshape Hvalid (index_lt agent) Hk)
      as Hv.
    subst c. cbn beta.
    unfold valid_position, on_bench, on_loop, on_home, START_SQUARE,
      OUT_OF_BOUNDS, FINAL_SQUARE in *.
    destruct (Z.leb_spec 0 (cell (state self) i k));
      destruct (Z.leb_spec (cell (state self) i k) (58 - dice_roll self));
      cbn [andb]; split; try lia; try done.
Qed.

(** * A token on cell 57 *)


(** * Randomness *)

Lemma step_live_dice_roll (draw action : Z) (self : LudoEnv) :
  _dones self (agent_selection self) = false →
  dice_roll (step draw action self) = draw.
Proof. intros Hlive. by destruct (step_live draw action self Hlive) as (_ & -> & _). Qed.

(** C8 (as amended).  [step] takes the action only and draws the roll
    itself, and [reset] makes no use of its seed.  For an agent that is
    not done, the value drawn is what the instance records as last roll,
    the last roll the instance held before the call has no influence on
    the outcome, and two calls on the same instance with the same action
    end in the same instance (board, rewards and done-flags included)
    whenever the rolls they record are equal. *)
Theorem step_draws_its_own_roll (draw action : Z) (self : LudoEnv) :
  _dones self (agent_selection self) = false →
  (∀ seed seed' other, reset seed self = reset seed' other)
  ∧ dice_roll (step draw action self) = draw
  ∧ (∀ roll, step draw action (set_dice_roll roll self)
             = step draw action self)
  ∧ (∀ s1 s2, Step action self s1 → Step action self s2 →
              dice_roll s1 = dice_roll s2 → s1 = s2).
Proof.
  intros Hlive. split; [done|].
  split; [by apply step_live_dice_roll|]. split.
  - intros roll. unfold step.
    cbn [set_dice_roll _dones agent_selection]. by rewrite Hlive.
  - intros s1 s2 [d1 _] [d2 _] Hroll.
    rewrite !step_live_dice_roll in Hroll by done. by subst d2.
Qed.

(** * More on capture detection *)

Lemma capture_pieces_first (st : Board) (player : nat) (position : Z)
    (a n piece : nat) :
  capture_pieces st player position (seq a n) = Some piece →
  ∀ k, (a ≤ k < piece)%nat → cell st player k ≠ position.
Proof.
  revert a. induction n as [|n IH]; intros a; cbn [seq capture_pieces]; [done|].
  destruct (Z.eqb_spec (cell st player a) position) as [Heq|Hne].
  - intros [= <-] k Hk. lia.
  - intros Hrest k Hk. destruct (decide (k = a)) as [->|Hka]; [done|].
    apply (IH (S a) Hrest). lia.
Qed.

Lemma capture_players_first (st : Board) (cur : nat) (position : Z)
    (a n player piece : nat) :
  capture_players st cur position (seq a n) = Some (player, piece) →
  ∀ p k, (a ≤ p)%nat → p ≠ cur → (k < NUM_TOKENS)%nat →
         (p < player ∨ p = player ∧ k < piece)%nat →
         cell st p k ≠ position.
Proof.
  revert a. induction n as [|n IH]; intros a; cbn [seq capture_players]; [done|].
  destruct (Nat.eqb_spec a cur) as [Heq|Hne]; cbn [negb].
  - intros Hrest p k Hp Hcur Hk Hbefore. apply (IH (S a) Hrest); [lia | done..].
  - destruct (capture_pieces st a position (seq 0 NUM_TOKENS)) as [pc|] eqn:Hpc.
    + intros [= <- <-] p k Hp Hcur Hk [Hlt|[-> Hlt]]; [lia|].
      apply (capture_pieces_first _ _ _ _ _ _ Hpc). lia.
    + intros Hrest p k Hp Hcur Hk Hbefore.
      destruct (decide (p = a)) as [->|Hpa].
      * apply (capture_pieces_None _ _ _ _ Hpc). apply elem_of_seq. lia.
      * apply (IH (S a) Hrest); [lia | done..].
Qed.

(** X1.  [_check_capture] finds no victim exactly when the position is a
    start square or no token of another player stands on it, and then
    leaves the instance as it is.  Otherwise the victim is a token of
    another player on that position, the first one in the order of the
    scan (by player, then by token); only that cell is written, with the
    bench value, so other tokens on the same position stay. *)
Theorem check_capture_first_match (self : LudoEnv) (position : Z) :
  let cur := index (agent_selection self) possible_agents in
  let st := state self in
  let result := _check_capture self position in
  (result.1 = None
   ↔ position ∈ start_positions
     ∨ ∀ p k, (p < NUM_PLAYERS)%nat → (k < NUM_TOKENS)%nat → p ≠ cur →
              cell st p k ≠ position)
  ∧ (result.1 = None → result.2 = self)
  ∧ ∀ player piece,
      result.1 = Some (player, piece) →
      player ≠ cur ∧ (player < NUM_PLAYERS)%nat ∧ (piece < NUM_TOKENS)%nat
      ∧ cell st player piece = position
      ∧ (∀ p k, p ≠ cur → (k < NUM_TOKENS)%nat →
                (p < player ∨ p = player ∧ k < piece)%nat →
                cell st p k ≠ position)
      ∧ result.2 = set_state (set_cell st player piece OUT_OF_BOUNDS) self
      ∧ ∀ p k, (p, k) ≠ (player, piece) →
               cell (state result.2) p k = cell st p k.
Proof.
  intros cur st result. subst result. unfold _check_capture. fold cur st.
  destruct (contains position start_positions) eqn:Hstart.
  { apply contains_spec in Hstart. cbn [fst snd].
    split; [split; [by left | done]|]. split; [done|]. done. }
  apply contains_false in Hstart.
  destruct (capture_players st cur position (seq 0 NUM_PLAYERS))
    as [[player piece]|] eqn:Hcap; cbn [fst snd].
  - pose proof (capture_players_Some _ _ _ _ _ _ Hcap) as (Hin & Hne & Hpc & Hcell).
    apply elem_of_seq in Hin. split; [|split; [done|]].
    + split; [done|]. intros [Hs|Hnone]; [done|].
      exfalso. apply (Hnone player piece); [lia | done..].
    + intros pl pc [= <- <-]. split; [done|]. split; [lia|].
      split; [done|]. split; [done|]. split.
      * intros p k Hp Hk Hbefore.
        apply (capture_players_first _ _ _ _ _ _ _ Hcap); [lia | done..].
      * split; [done|]. intros p k Hpk. cbn [state set_state].
        by apply cell_set_cell_ne.
  - split; [|split; [done|done]].
    split; [|done]. intros _. right. intros p k Hp Hk Hcur.
    apply (capture_players_None _ _ _ _ Hcap); [|done..].
    apply elem_of_seq. lia.
Qed.

(** * The action branches, case by case *)

Lemma play_spec (action : Z) (self : LudoEnv) :
  let i := index (agent_selection self) possible_agents in
  let st := state self in
  (play action self = (self, 0)
   ∧ (action < 0 ∨ 4 < action ∨ action = 0 ∧ dice_roll self ≠ 6
      ∨ 1 <= action <= 4 ∧ cell st i (Z.to_nat (action - 1)) = OUT_OF_BOUNDS))
  ∨ (action = 0 ∧ dice_roll self = 6
     ∧ play action self =
         (set_state (enter_token st i (seq 0 NUM_TOKENS)) self, 0))
  ∨ (∃ t, action = Z.of_nat t + 1 ∧ (t < NUM_TOKENS)%nat
          ∧ cell st i t ≠ OUT_OF_BOUNDS
          ∧ let new_pos :=
              _calculate_new_position self (cell st i t) (dice_roll self) in
            let captured :=
              _check_capture (set_state (set_cell st i t new_pos) self)
                new_pos in
            play action self =
              (captured.2,
               (if captured.1 is Some _ then 1 else 0)
               + (if new_pos =? FINAL_SQUARE then 2 else 0))).
Proof.
  intros i st. unfold play. fold i st.
  destruct (Z.eqb_spec action 0) as [Ha|Ha]; cbn [andb].
  - destruct (Z.eqb_spec (dice_roll self) 6) as [Hd|Hd].
    + right; left. done.
    + left. subst action. cbn. split; [done|]. right; right; left. done.
  - destruct (Z.leb_spec 1 action) as [H1|H1]; cbn [andb];
      [|left; split; [done | left; lia]].
    destruct (Z.leb_spec action 4) as [H4|H4];
      [|left; split; [done | right; left; lia]].
    destruct (Z.eqb_spec (cell st i (Z.to_nat (action - 1))) OUT_OF_BOUNDS)
      as [Hb|Hb]; cbn [negb].
    + left. split; [done|]. right; right; right. done.
    + right; right. exists (Z.to_nat (action - 1)).
      split; [lia|]. split; [unfold NUM_TOKENS; lia|]. split; [done|].
      cbn zeta. destruct (_check_capture _ _) as [captured self'].
      cbn [fst snd]. f_equal.
      destruct captured, (_ =? FINAL_SQUARE); lia.
Qed.

Lemma step_live_fields (draw action : Z) (self : LudoEnv) :
  _dones self (agent_selection self) = false →
  let played := play action (set_dice_roll draw self) in
  let self' := step draw action self in
  let over := _check_game_over played.1 in
  current_player self' = current_player self
  ∧ agent_selection self' =
      (if over then agent_selection self
       else (selector_next (_agent_selector self)).1)
  ∧ _agent_selector self' =
      (if over then _agent_selector self
       else (selector_next (_agent_selector self)).2)
  ∧ (∀ a, rewards self' a =
          if decide (a = agent_selection self) then played.2
          else rewards self a)
  ∧ (∀ a, _cumulative_rewards self' a =
          if decide (a = agent_selection self)
          then _cumulative_rewards self a + played.2
          else _cumulative_rewards self a).
Proof.
  intros Hlive played self' over. subst self' over. unfold step.
  rewrite Hlive.
  pose proof (play_frame action (set_dice_roll draw self)) as Hframe.
  fold played in Hframe |- *.
  destruct played as [after reward]. cbn [fst snd] in *.
  rewrite Hframe. cbn [set_state set_dice_roll state dice_roll agent_selection
    _dones rewards _cumulative_rewards _agent_selector current_player].
  assert (∀ (f : Player → Z) v a,
            <[agent_selection self := v]> f a =
            if decide (a = agent_selection self) then v else f a) as Hins.
  { intros f v a. destruct (decide (a = agent_selection self)) as [->|Hne].
    - apply fn_lookup_insert.
    - by apply fn_lookup_insert_ne. }
  destruct (_check_game_over _);
    [|destruct (selector_next (_agent_selector self)) as [next selector]];
    cbn [current_player agent_selection _agent_selector rewards
         _cumulative_rewards fst snd];
    repeat split; intros; rewrite ?Hins; try done;
    by destruct (decide _) as [->|].
Qed.

(** The four outcomes of a call of [step] by an agent that is not done:
    nothing moves; a bench token enters; a token moves and captures
    nothing; a token moves and captures one token. *)
Lemma step_outcome (draw action : Z) (self : LudoEnv) :
  _dones self (agent_selection self) = false →
  let i := index (agent_selection self) possible_agents in
  let st := state self in
  let st' := state (step draw action self) in
  let reward := rewards (step draw action self) (agent_selection self) in
  (st' = st ∧ reward = 0
   ∧ (action < 0 ∨ 4 < action ∨ action = 0 ∧ draw ≠ 6
      ∨ 1 <= action <= 4 ∧ cell st i (Z.to_nat (action - 1)) = OUT_OF_BOUNDS))
  ∨ (action = 0 ∧ draw = 6 ∧ st' = enter_token st i (seq 0 NUM_TOKENS)
     ∧ reward = 0)
  ∨ (∃ t, action = Z.of_nat t + 1 ∧ (t < NUM_TOKENS)%nat
          ∧ cell st i t ≠ OUT_OF_BOUNDS
          ∧ let new_pos := _calculate_new_position self (cell st i t) draw in
            let moved := set_cell st i t new_pos in
            (st' = moved
             ∧ reward = (if new_pos =? FINAL_SQUARE then 2 else 0))
            ∨ (∃ player piece,
                 player ≠ i ∧ (player < NUM_PLAYERS)%nat
                 ∧ (piece < NUM_TOKENS)%nat
                 ∧ cell moved player piece = new_pos
                 ∧ (new_pos ∉ start_positions)
                 ∧ st' = set_cell moved player piece OUT_OF_BOUNDS
                 ∧ reward = 1 + (if new_pos =? FINAL_SQUARE then 2 else 0))).
Proof.
  intros Hlive i st st' reward. subst st' reward.
  destruct (step_live draw action self Hlive) as (-> & _ & -> & _).
  pose proof (play_spec action (set_dice_roll draw self)) as Hplay.
  cbn [set_dice_roll state agent_selection dice_roll] in Hplay.
  fold i st in Hplay.
  destruct Hplay as [[-> Hwhy]|[(Ha & Hd & ->)|(t & Ha & Ht & Hcell & Hmove)]].
  - left. done.
  - right; left. done.
  - right; right. exists t. split; [done|]. split; [done|]. split; [done|].
    cbn zeta in Hmove |- *. rewrite Hmove. cbn [fst snd].
    match goal with
    | |- context [_check_capture ?s ?p] =>
        destruct (check_capture_cases s p)
          as [Hc|(pl & pc & Hpl & Hlt & Hpc & Hat & Hsafe & Hc)];
        rewrite Hc; cbn [fst snd state set_state]
    end.
    + left. split; [done|]. by destruct (_ =? FINAL_SQUARE).
    + right. exists pl, pc. repeat split; try done.
Qed.

Lemma start_position_not_final (v : Z) :
  v ∈ start_positions → (v =? FINAL_SQUARE) = false.
Proof.
  unfold start_positions, FINAL_SQUARE.
  rewrite !elem_of_cons, elem_of_nil. intros Hv. apply Z.eqb_neq. lia.
Qed.

(** * What one call of [step] does to the board and the rewards *)

(** X2.  A move that lands on one of the four start squares never
    captures: every token of every other player keeps its position and the
    mover's reward for the turn is 0. *)
Theorem start_square_landing_is_safe (draw action : Z) (self : LudoEnv)
    (t : nat) :
  _dones self (agent_selection self) = false →
  action = Z.of_nat t + 1 → (t < NUM_TOKENS)%nat →
  let i := index (agent_selection self) possible_agents in
  cell (state self) i t ≠ OUT_OF_BOUNDS →
  _calculate_new_position self (cell (state self) i t) draw ∈ start_positions →
  (∀ p k, p ≠ i →
          cell (state (step draw action self)) p k = cell (state self) p k)
  ∧ rewards (step draw action self) (agent_selection self) = 0.
Proof.
  intros Hlive Ha Ht i Hcell Hstart.
  pose proof (step_outcome draw action self Hlive) as Hout.
  cbn zeta in Hout. fold i in Hout.
  destruct Hout
    as [(_ & _ & Hwhy)|[(Ha0 & _)|(t' & Ha' & _ & _ & Hmove)]].
  - exfalso. subst action.
    replace (Z.to_nat (Z.of_nat t + 1 - 1)) with t in Hwhy by lia.
    unfold NUM_TOKENS in Ht. lia.
  - lia.
  - assert (t' = t) as -> by lia. cbn zeta in Hmove.
    destruct Hmove as [[-> ->]|(pl & pc & _ & _ & _ & _ & Hsafe & _)]; [|done].
    split.
    + intros p k Hp. apply cell_set_cell_ne. congruence.
    + by rewrite start_position_not_final.
Qed.

(** X3.  One call of [step] sends at most one token to the bench.  Either
    every token of every other player keeps its position and the reward is
    0 or 2, or exactly one token of another player, standing off the start
    squares, is sent to the bench, every other token of the other players
    keeps its position, and the reward is 1 or 3. *)
Theorem step_captures_at_most_one (draw action : Z) (self : LudoEnv) :
  board_shape (state self) →
  _dones self (agent_selection self) = false →
  let i := index (agent_selection self) possible_agents in
  let st := state self in
  let st' := state (step draw action self) in
  let reward := rewards (step draw action self) (agent_selection self) in
  ((∀ p k, p ≠ i → cell st' p k = cell st p k) ∧ (reward = 0 ∨ reward = 2))
  ∨ ∃ player piece,
      player ≠ i ∧ (player < NUM_PLAYERS)%nat ∧ (piece < NUM_TOKENS)%nat
      ∧ (cell st player piece ∉ start_positions)
      ∧ cell st' player piece = OUT_OF_BOUNDS
      ∧ (∀ p k, p ≠ i → (p, k) ≠ (player, piece) →
                cell st' p k = cell st p k)
      ∧ (reward = 1 ∨ reward = 3).
Proof.
  intros Hshape Hlive i st st' reward. subst st' reward.
  pose proof (step_outcome draw action self Hlive) as Hout.
  cbn zeta in Hout. fold i st in Hout.
  destruct Hout
    as [(-> & -> & _)|[(_ & _ & -> & ->)|(t & _ & _ & _ & Hmove)]].
  - left. split; [done | by left].
  - left. split; [|by left]. intros p k Hp.
    destruct (enter_token_cases st i (seq 0 NUM_TOKENS))
      as [[-> _]|(t & _ & _ & ->)]; [done|].
    apply cell_set_cell_ne. congruence.
  - cbn zeta in Hmove.
    set (new_pos := _calculate_new_position self (cell st i t) draw) in *.
    destruct Hmove
      as [[-> ->]|(pl & pc & Hpl & Hlt & Hpc & Hat & Hsafe & -> & ->)].
    + left. split.
      * intros p k Hp. apply cell_set_cell_ne. congruence.
      * destruct (new_pos =? FINAL_SQUARE); [by right | by left].
    + right. exists pl, pc.
      rewrite cell_set_cell_ne in Hat by congruence.
      split; [done|]. split; [done|]. split; [done|].
      split; [by rewrite Hat|]. split.
      { apply cell_set_cell_eq; [by apply set_cell_shape | done..]. }
      split.
      * intros p k Hp Hpk. rewrite cell_set_cell_ne by done.
        apply cell_set_cell_ne. congruence.
      * destruct (new_pos =? FINAL_SQUARE); [by right | by left].
Qed.

(** X4.  One call of [step] by an agent that is not done gives that agent
    a reward between 0 and 3, adds it to the agent's cumulative reward, and
    leaves the reward and the cumulative reward of every other agent as
    they were. *)
Theorem step_reward_accounting (draw action : Z) (self : LudoEnv) :
  _dones self (agent_selection self) = false →
  let agent := agent_selection self in
  let self' := step draw action self in
  0 <= rewards self' agent <= 3
  ∧ _cumulative_rewards self' agent
    = _cumulative_rewards self agent + rewards self' agent
  ∧ ∀ other, other ≠ agent →
      rewards self' other = rewards self other
      ∧ _cumulative_rewards self' other = _cumulative_rewards self other.
Proof.
  intros Hlive agent self'. subst agent self'.
  destruct (step_live_fields draw action self Hlive)
    as (_ & _ & _ & Hrew & Hcum).
  split.
  - destruct (step_outcome draw action self Hlive)
      as [(_ & -> & _)|[(_ & _ & _ & ->)|(t & _ & _ & _ & Hmove)]];
      [done | done |].
    cbn zeta in Hmove.
    destruct Hmove as [[_ ->]|(pl & pc & _ & _ & _ & _ & _ & _ & ->)];
      destruct (_ =? FINAL_SQUARE); lia.
  - split.
    + rewrite Hcum, Hrew.
      destruct (decide (agent_selection self = agent_selection self));
        [done | congruence].
    + intros other Hother. rewrite Hrew, Hcum.
      destruct (decide (other = agent_selection self)); [congruence | done].
Qed.

(** X5.  A call of [step] by an agent that is not done records the value
    drawn as the last roll and never writes [current_player].  When the
    call ends the game, the agent to move and the selector are left as they
    are; otherwise the agent to move becomes the selector's next agent. *)
Theorem step_turn_rotation (draw action : Z) (self : LudoEnv) :
  _dones self (agent_selection self) = false →
  let self' := step draw action self in
  dice_roll self' = draw
  ∧ current_player self' = current_player self
  ∧ (_check_game_over self' = true →
     agent_selection self' = agent_selection self
     ∧ _agent_selector self' = _agent_selector self)
  ∧ (_check_game_over self' = false →
     agent_selection self' = (selector_next (_agent_selector self)).1
     ∧ _agent_selector self' = (selector_next (_agent_selector self)).2).
Proof.
  intros Hlive self'. subst self'.
  destruct (step_live draw action self Hlive) as (Hst & Hdice & _).
  destruct (step_live_fields draw action self Hlive)
    as (Hcur & Hsel & Hselector & _).
  rewrite (check_game_over_state _ _ Hst).
  split; [done|]. split; [done|].
  split; intros Hover; rewrite Hover in Hsel, Hselector; done.
Qed.

(** X6.  An action that is not playable is a pass, not an error: for an
    action outside 0..4, for action 0 with a roll other than 6, and for a
    move of a token that is on the bench, [step] leaves the board as it is
    and gives reward 0; the roll is still recorded. *)
Theorem unplayable_action_is_a_pass (draw action : Z) (self : LudoEnv) :
  _dones self (agent_selection self) = false →
  let i := index (agent_selection self) possible_agents in
  (action < 0 ∨ 4 < action ∨ action = 0 ∧ draw ≠ 6
   ∨ 1 <= action <= 4
     ∧ cell (state self) i (Z.to_nat (action - 1)) = OUT_OF_BOUNDS) →
  state (step draw action self) = state self
  ∧ rewards (step draw action self) (agent_selection self) = 0
  ∧ dice_roll (step draw action self) = draw.
Proof.
  intros Hlive i Hwhy.
  destruct (step_live draw action self Hlive) as (_ & Hdice & _).
  pose proof (step_outcome draw action self Hlive) as Hout.
  cbn zeta in Hout. fold i in Hout.
  destruct Hout
    as [(Hst & Hrew & _)|[(Ha & Hd & _)|(t & Ha & Ht & Hcell & _)]].
  - done.
  - lia.
  - exfalso. subst action.
    replace (Z.to_nat (Z.of_nat t + 1 - 1)) with t in Hwhy by lia.
    unfold NUM_TOKENS in Ht. lia.
Qed.

(** X7.  Moving one's token changes no other token of one's own: after a
    move of token [t] that is not on the bench, token [t] stands on the
    position computed by [_calculate_new_position] and the mover's other
    tokens keep their positions. *)
Theorem move_changes_only_that_token (draw action : Z) (self : LudoEnv)
    (t : nat) :
  board_shape (state self) →
  _dones self (agent_selection self) = false →
  action = Z.of_nat t + 1 → (t < NUM_TOKENS)%nat →
  let i := index (agent_selection self) possible_agents in
  cell (state self) i t ≠ OUT_OF_BOUNDS →
  cell (state (step draw action self)) i t
  = _calculate_new_position self (cell (state self) i t) draw
  ∧ ∀ k, k ≠ t →
      cell (state (step draw action self)) i k = cell (state self) i k.
Proof.
  intros Hshape Hlive Ha Ht i Hcell.
  pose proof (step_outcome draw action self Hlive) as Hout.
  cbn zeta in Hout. fold i in Hout.
  destruct Hout
    as [(_ & _ & Hwhy)|[(Ha0 & _)|(t' & Ha' & _ & _ & Hmove)]].
  - exfalso. subst action.
    replace (Z.to_nat (Z.of_nat t + 1 - 1)) with t in Hwhy by lia.
    unfold NUM_TOKENS in Ht. lia.
  - lia.
  - assert (t' = t) as -> by lia. cbn zeta in Hmove.
    destruct Hmove as [[-> _]|(pl & pc & Hpl & _ & _ & _ & _ & -> & _)].
    + split; [apply cell_set_cell_eq; [done | apply index_lt | done]|].
      intros k Hk. apply cell_set_cell_ne. congruence.
    + split.
      * rewrite cell_set_cell_ne by congruence.
        apply cell_set_cell_eq; [done | apply index_lt | done].
      * intros k Hk. rewrite cell_set_cell_ne by congruence.
        apply cell_set_cell_ne. congruence.
Qed.

(** * More on the position-advance function *)

Lemma start_position_on_loop (a : Player) :
  0 <= start_positions !!! index a possible_agents <= 51.
Proof. destruct a; vm_compute; split; congruence. Qed.

(** X8.  For a position in [0, 58] and a roll in [1, 6], the advance
    function returns the position it was given exactly on the cells 57 and
    58: from everywhere else a move changes the position. *)
Theorem advance_fixed_points (self : LudoEnv) (p roll : Z) :
  0 <= p <= FINAL_SQUARE → 1 <= roll <= 6 →
  _calculate_new_position self p roll = p ↔ 57 <= p.
Proof.
  unfold FINAL_SQUARE. intros Hp Hroll.
  destruct (decide (p < 52)) as [Hlt|Hge].
  - rewrite calculate_on_loop by done.
    assert ((p + roll) `mod` 52 ≠ p) as Hmoved.
    { destruct (decide (p + roll < 52)) as [Hsmall|Hwrap].
      - rewrite Z.mod_small by lia. lia.
      - replace (p + roll) with (p + roll - 52 + 1 * 52) by lia.
        rewrite Z_mod_plus_full, Z.mod_small by lia. lia. }
    case_bool_decide as Hin; [|lia].
    rewrite home_entry_table in *.
    destruct (agent_selection self); apply range_elem in Hin;
      change (range ?a ?b !!! 0%nat) with a; lia.
  - unfold _calculate_new_position.
    destruct (Z.ltb_spec p 52); [lia|].
    destruct (Z.ltb_spec p 57); lia.
Qed.

Lemma calculate_in_home (self : LudoEnv) (p roll : Z) :
  52 <= p <= FINAL_SQUARE → 0 <= roll →
  p <= _calculate_new_position self p roll <= FINAL_SQUARE.
Proof.
  unfold FINAL_SQUARE, _calculate_new_position. intros Hp Hroll.
  destruct (Z.ltb_spec p 52); [lia|].
  destruct (Z.ltb_spec p 57); lia.
Qed.

(** X9.  A token in the home stretch never goes back by its own moves:
    from a position in [52, 58], after any sequence of moves with rolls
    that are not negative, the position is at least the one it started
    from and at most 58, so the token never returns to the shared loop. *)
Theorem home_stretch_never_left (self : LudoEnv) (rolls : list Z) (p : Z) :
  52 <= p <= FINAL_SQUARE → Forall (λ roll, 0 <= roll) rolls →
  p <= advance self rolls p <= FINAL_SQUARE.
Proof.
  unfold advance. revert p.
  induction rolls as [|roll rolls IH]; intros p Hp Hrolls; cbn [foldl].
  - lia.
  - apply Forall_cons in Hrolls as [Hroll Hrolls].
    pose proof (calculate_in_home self p roll Hp Hroll) as Hstep.
    assert (52 <= _calculate_new_position self p roll <= FINAL_SQUARE)
      as Hnext by lia.
    specialize (IH (_calculate_new_position self p roll) Hnext Hrolls). lia.
Qed.

(** * The mask, slot by slot *)

Lemma mask_slots (self : LudoEnv) (agent : Player) :
  let i := index agent possible_agents in
  let mask := _mask_actions self agent in
  length mask = 5%nat
  ∧ mask !!! 0%nat =
      (if existsb (λ v, v =? OUT_OF_BOUNDS) (state self !!! i)
          && (dice_roll self =? 6) then 1 else 0)
  ∧ ∀ k, (k < NUM_TOKENS)%nat →
      mask !!! S k =
        if (START_SQUARE <=? cell (state self) i k)
           && (cell (state self) i k <=? FINAL_SQUARE - dice_roll self)
        then 1 else 0.
Proof.
  intros i mask. subst mask. unfold _mask_actions. fold i.
  set (c := λ token : nat,
         (START_SQUARE <=? cell (state self) i token)
         && (cell (state self) i token <=? FINAL_SQUARE - dice_roll self)).
  set (enter := existsb (λ v, v =? OUT_OF_BOUNDS) (state self !!! i)
                && (dice_roll self =? 6)).
  set (m0 := if enter then <[0%nat:=1]> (replicate 5 0) else replicate 5 0).
  assert (length m0 = 5%nat) as Hlen0 by (subst m0; by destruct enter).
  change (foldl _ m0 (seq 0 NUM_TOKENS)) with
    (foldl (λ mask token, if c token then <[S token := 1]> mask else mask)
       m0 (seq 0 NUM_TOKENS)).
  split; [by rewrite mask_fold_length|]. split.
  - rewrite mask_fold_lookup by lia. cbn [seq existsb Nat.eqb andb orb].
    subst m0. by destruct enter.
  - intros k Hk. rewrite mask_fold_lookup by (unfold NUM_TOKENS in Hk; lia).
    assert (existsb (λ t, (S t =? S k)%nat && c t) (seq 0 NUM_TOKENS) = c k)
      as ->.
    { unfold NUM_TOKENS in *.
      destruct k as [|[|[|[|k]]]]; [| | | |lia];
        cbn [seq existsb Nat.eqb andb orb]; by rewrite ?orb_false_r. }
    assert (m0 !!! S k = 0) as ->.
    { subst m0. unfold NUM_TOKENS in *.
      destruct enter; by destruct k as [|[|[|[|k]]]]; [| | | |lia]. }
    done.
Qed.

(** * The mask against what [step] does *)

(** X10.  A token that is already on cell 58 can still be "moved": the
    token stays on 58 and the mover is rewarded 2 again (3 when the move
    also captures). *)
Theorem finished_token_rewarded_again (draw action : Z) (self : LudoEnv)
    (t : nat) :
  _dones self (agent_selection self) = false →
  action = Z.of_nat t + 1 → (t < NUM_TOKENS)%nat →
  let i := index (agent_selection self) possible_agents in
  cell (state self) i t = FINAL_SQUARE →
  cell (state (step draw action self)) i t = FINAL_SQUARE
  ∧ (rewards (step draw action self) (agent_selection self) = 2
     ∨ rewards (step draw action self) (agent_selection self) = 3).
Proof.
  intros Hlive Ha Ht i Hcell.
  pose proof (step_outcome draw action self Hlive) as Hout.
  cbn zeta in Hout. fold i in Hout.
  destruct Hout as [(_ & _ & Hwhy)|[(Ha0 & _)|(t' & Ha' & _ & _ & Hmove)]].
  - exfalso. subst action.
    replace (Z.to_nat (Z.of_nat t + 1 - 1)) with t in Hwhy by lia.
    unfold NUM_TOKENS, FINAL_SQUARE, OUT_OF_BOUNDS in *. lia.
  - lia.
  - assert (t' = t) as -> by lia. rewrite Hcell in Hmove.
    change (_calculate_new_position self FINAL_SQUARE draw)
      with FINAL_SQUARE in Hmove.
    rewrite <- Hcell, set_cell_same, Hcell in Hmove.
    change (FINAL_SQUARE =? FINAL_SQUARE) with true in Hmove.
    destruct Hmove as [[-> ->]|(pl & pc & Hpl & _ & _ & _ & _ & -> & ->)].
    + split; [done | by left].
    + split; [|by right]. rewrite cell_set_cell_ne; [done | congruence].
Qed.

(** X11.  The mask is not enforced by [step].  For a token in the home
    stretch whose position plus the roll exceeds 58, the mask computed for
    that roll marks the move as not allowed, and yet [step] with that move
    and that roll puts the token on 58 and rewards the mover with 2 or
    more. *)
Theorem overshoot_masked_but_played (draw action : Z) (self : LudoEnv)
    (t : nat) :
  board_shape (state self) →
  _dones self (agent_selection self) = false →
  action = Z.of_nat t + 1 → (t < NUM_TOKENS)%nat →
  let i := index (agent_selection self) possible_agents in
  52 <= cell (state self) i t < 57 →
  FINAL_SQUARE < cell (state self) i t + draw →
  _mask_actions (set_dice_roll draw self) (agent_selection self) !!! S t = 0
  ∧ cell (state (step draw action self)) i t = FINAL_SQUARE
  ∧ 2 <= rewards (step draw action self) (agent_selection self).
Proof.
  intros Hshape Hlive Ha Ht i Hpos Hover. split.
  - destruct (mask_slots (set_dice_roll draw self) (agent_selection self))
      as (_ & _ & Hslot).
    rewrite (Hslot t Ht). cbn [set_dice_roll state dice_roll]. fold i.
    unfold START_SQUARE, FINAL_SQUARE in *.
    destruct (Z.leb_spec 0 (cell (state self) i t));
      destruct (Z.leb_spec (cell (state self) i t) (58 - draw));
      cbn [andb]; try done; lia.
  - pose proof (step_outcome draw action self Hlive) as Hout.
    cbn zeta in Hout. fold i in Hout.
    destruct Hout as [(_ & _ & Hwhy)|[(Ha0 & _)|(t' & Ha' & _ & _ & Hmove)]].
    + exfalso. subst action.
      replace (Z.to_nat (Z.of_nat t + 1 - 1)) with t in Hwhy by lia.
      unfold NUM_TOKENS, OUT_OF_BOUNDS in *. lia.
    + lia.
    + assert (t' = t) as -> by lia.
      assert (_calculate_new_position self (cell (state self) i t) draw
              = FINAL_SQUARE) as Hnew.
      { unfold _calculate_new_position, FINAL_SQUARE in *.
        destruct (Z.ltb_spec (cell (state self) i t) 52); [lia|].
        destruct (Z.ltb_spec (cell (state self) i t) 57); lia. }
      rewrite Hnew in Hmove.
      change (FINAL_SQUARE =? FINAL_SQUARE) with true in Hmove.
      destruct Hmove as [[-> ->]|(pl & pc & Hpl & _ & _ & _ & _ & -> & ->)].
      * split; [|lia]. apply cell_set_cell_eq; [done | apply index_lt | done].
      * split; [|lia]. rewrite cell_set_cell_ne by congruence.
        apply cell_set_cell_eq; [done | apply index_lt | done].
Qed.

(** X12.  For action 0 the mask and [step] agree: slot 0 of the mask
    computed for the roll that [step] draws is 1 exactly when [step] with
    action 0 changes the board. *)
Theorem enter_mask_agrees_with_step (draw : Z) (self : LudoEnv) :
  board_shape (state self) →
  _dones self (agent_selection self) = false →
  _mask_actions (set_dice_roll draw self) (agent_selection self) !!! 0%nat = 1
  ↔ state (step draw 0 self) ≠ state self.
Proof.
  intros Hshape Hlive.
  set (i := index (agent_selection self) possible_agents).
  destruct (mask_slots (set_dice_roll draw self) (agent_selection self))
    as (_ & -> & _).
  cbn [set_dice_roll state dice_roll]. fold i.
  pose proof (step_outcome draw 0 self Hlive) as Hout.
  cbn zeta in Hout. fold i in Hout.
  pose proof (enter_token_cases (state self) i (seq 0 NUM_TOKENS)) as Henter.
  pose proof (start_position_on_loop (agent_selection self)) as Hstart.
  fold i in Hstart.
  assert (∀ t, (t < NUM_TOKENS)%nat → cell (state self) i t = OUT_OF_BOUNDS →
               set_cell (state self) i t (start_positions !!! i) ≠ state self)
    as Hchanged.
  { intros t Ht Hbench Hsame.
    assert (cell (set_cell (state self) i t (start_positions !!! i)) i t
            = start_positions !!! i) as Hcell.
    { apply cell_set_cell_eq; [done | apply index_lt | done]. }
    rewrite Hsame, Hbench in Hcell. unfold OUT_OF_BOUNDS in Hcell. lia. }
  destruct (existsb _ (state self !!! i)) eqn:Hbench.
  - apply existsb_lookup_total in Hbench as (t & Ht & Hcell).
    rewrite (board_shape_row _ i Hshape (index_lt _)) in Ht.
    apply Z.eqb_eq in Hcell. fold (cell (state self) i t) in Hcell.
    destruct (Z.eqb_spec draw 6) as [Hd|Hd]; cbn [andb].
    + split; [intros _|done].
      destruct Hout as [(_ & _ & Hwhy)|[(_ & _ & -> & _)|(t' & Ha' & _)]];
        [lia | | lia].
      destruct Henter as [[_ Hnone]|(t0 & Hin & Hcell0 & ->)].
      * exfalso. apply (Hnone t); [apply elem_of_seq; lia | done].
      * apply elem_of_seq in Hin. apply Hchanged; [lia | done].
    + split; [done|]. intros Hneq. exfalso.
      destruct Hout as [(Hst & _)|[(_ & Hd6 & _)|(t' & Ha' & _)]];
        [done | done | lia].
  - split; [by destruct (draw =? 6)|]. intros Hneq. exfalso.
    destruct Hout as [(Hst & _)|[(_ & _ & Hst & _)|(t' & Ha' & _)]];
      [done | | lia].
    destruct Henter as [[Hsame _]|(t0 & Hin & Hcell0 & _)]; [congruence|].
    apply elem_of_seq in Hin.
    assert (existsb (λ v, v =? OUT_OF_BOUNDS) (state self !!! i) = true)
      as Hsome; [|congruence].
    apply existsb_lookup_total. exists t0.
    rewrite (board_shape_row _ i Hshape (index_lt _)).
    split; [lia|]. by apply Z.eqb_eq.
Qed.

(** X13.  How tokens go to and from the bench in one call of [step] with
    a roll in [1, 6] on a valid board: a token of the mover that is in play
    stays in play; a token of the mover on the bench stays there unless the
    action is 0 and the roll is 6, in which case it may go to the mover's
    start square; a token of another player on the bench stays there. *)
Theorem bench_discipline (draw action : Z) (self : LudoEnv) :
  board_shape (state self) → valid_board (state self) →
  _dones self (agent_selection self) = false →
  1 <= draw <= 6 →
  let i := index (agent_selection self) possible_agents in
  let st := state self in
  let st' := state (step draw action self) in
  (∀ k, (k < NUM_TOKENS)%nat → cell st i k ≠ OUT_OF_BOUNDS →
        cell st' i k ≠ OUT_OF_BOUNDS)
  ∧ (∀ k, (k < NUM_TOKENS)%nat → cell st i k = OUT_OF_BOUNDS →
          cell st' i k = OUT_OF_BOUNDS
          ∨ action = 0 ∧ draw = 6 ∧ cell st' i k = start_positions !!! i)
  ∧ (∀ p k, p ≠ i → (p < NUM_PLAYERS)%nat → (k < NUM_TOKENS)%nat →
            cell st p k = OUT_OF_BOUNDS → cell st' p k = OUT_OF_BOUNDS).
Proof.
  intros Hshape Hvalid Hlive Hdraw i st st'. subst st'.
  pose proof (step_outcome draw action self Hlive) as Hout.
  cbn zeta in Hout. fold i st in Hout.
  pose proof (index_lt (agent_selection self)) as Hi. fold i in Hi.
  destruct Hout as [(-> & _)|[(Ha & Hd & -> & _)|(t & _ & Ht & Hcell & Hmove)]].
  - repeat split; [done | by left | done].
  - destruct (enter_token_cases st i (seq 0 NUM_TOKENS))
      as [[-> _]|(t & Hin & Hbench & ->)];
      [repeat split; [done | by left | done]|].
    apply elem_of_seq in Hin. split; [|split].
    + intros k Hk Hplay. rewrite cell_set_cell_ne; [done | congruence].
    + intros k Hk Hkbench. destruct (decide (k = t)) as [->|Hkt].
      * right. split; [done|]. split; [done|].
        apply cell_set_cell_eq; [done | done | lia].
      * left. rewrite cell_set_cell_ne; [done | congruence].
    + intros p k Hp _ _ Hpbench. rewrite cell_set_cell_ne; [done | congruence].
  - set (new_pos := _calculate_new_position self (cell st i t) draw) in *.
    assert (0 <= new_pos) as Hnew.
    { pose proof (cell_valid st i t Hshape Hvalid Hi Ht) as Hold.
      assert (0 <= cell st i t <= FINAL_SQUARE) as Hrange.
      { unfold valid_position, on_bench, on_loop, on_home, FINAL_SQUARE in *.
        lia. }
      pose proof (calculate_valid self _ _ Hrange Hdraw). fold new_pos in H.
      lia. }
    assert (∀ k, (k < NUM_TOKENS)%nat →
                 (cell st i k ≠ OUT_OF_BOUNDS →
                  cell (set_cell st i t new_pos) i k ≠ OUT_OF_BOUNDS)
                 ∧ (cell st i k = OUT_OF_BOUNDS →
                    cell (set_cell st i t new_pos) i k = OUT_OF_BOUNDS))
      as Hown.
    { intros k Hk. destruct (decide (k = t)) as [->|Hkt].
      - rewrite cell_set_cell_eq by done. unfold OUT_OF_BOUNDS. split; [lia|done].
      - rewrite cell_set_cell_ne by congruence. done. }
    destruct Hmove as [[-> _]|(pl & pc & Hpl & Hlt & Hpc & _ & _ & -> & _)].
    + split; [|split].
      * intros k Hk. apply Hown, Hk.
      * intros k Hk Hb. left. by apply Hown.
      * intros p k Hp _ _ Hb. rewrite cell_set_cell_ne; [done | congruence].
    + split; [|split].
      * intros k Hk. rewrite cell_set_cell_ne by congruence. apply Hown, Hk.
      * intros k Hk Hb. left. rewrite cell_set_cell_ne by congruence.
        by apply Hown.
      * intros p k Hp Hplt Hk Hb.
        destruct (decide ((pl, pc) = (p, k))) as [[= -> ->]|Hne].
        -- apply cell_set_cell_eq; [by apply set_cell_shape | done..].
        -- rewrite cell_set_cell_ne by done.
           rewrite cell_set_cell_ne; [done | congruence].
Qed.

(** * Observations *)

Lemma reachable_roll (self : LudoEnv) :
  handler_keeps_roll → reachable self → 0 <= dice_roll self <= 6.
Proof.
  intros Hkeeps Hreach.
  induction Hreach as [seed self|action self self' _ IH Hstep]; [done|].
  destruct Hstep as [draw Hdraw].
  destruct (_dones self (agent_selection self)) eqn:Hdone.
  - by rewrite step_done, Hkeeps.
  - rewrite step_live_dice_roll by done. lia.
Qed.

(** X14.  What [observe] returns lies in the observation space declared
    in [__init__], for every agent and every reachable instance: a 4x4
    board with cells in [-1, 58], a player index below 4, a mask of five
    entries in [0, 1] and a roll in [0, 6]. *)
Theorem observe_in_observation_space (self : LudoEnv) (agent : Player) :
  handler_frame → handler_keeps_roll → reachable self →
  in_observation_space (observe self agent).
Proof.
  intros Hframe Hkeeps Hreach.
  destruct (reachable_board self Hframe Hreach) as [Hshape Hvalid].
  pose proof (reachable_roll self Hkeeps Hreach) as Hroll.
  unfold in_observation_space, observe.
  cbn [board_state player_to_move action_mask last_roll].
  split; [done|]. split.
  { unfold valid_board in Hvalid.
    eapply Forall_impl; [exact Hvalid|]. intros row Hrow.
    eapply Forall_impl; [exact Hrow|]. intros v Hv.
    unfold valid_position, on_bench, on_loop, on_home, OUT_OF_BOUNDS,
      FINAL_SQUARE in *. lia. }
  split; [apply index_lt|].
  destruct (mask_slots self agent) as (Hlen & _). split; [done|].
  split; [|lia].
  unfold _mask_actions.
  eapply Forall_impl.
  - apply mask_fold_bits.
    destruct (_ && _); repeat (constructor; [by auto|]); constructor.
  - intros b Hb. cbn beta in Hb. lia.
Qed.

(** * After the game is over *)

Lemma steps_frozen (self self' : LudoEnv) :
  handler_frame → Steps self self' →
  (∀ agent, _dones self agent = true) →
  state self' = state self.
Proof.
  intros Hframe Hsteps.
  induction Hsteps as [self|self mid self' [action [draw _]] _ IH]; [done|].
  intros Hall.
  assert (step draw action self = _was_done_step action self) as Hstep
    by (apply step_done, Hall).
  destruct (Hframe action self) as [Hst Hdn].
  rewrite IH, Hstep; [done|]. intros agent. by rewrite Hstep, Hdn.
Qed.

(** X15.  Once the game is over the board is frozen: from a reachable
    instance in which some player has finished, no sequence of calls of
    [step] changes any cell of the board, so the game stays over. *)
Theorem board_frozen_after_game_over (self self' : LudoEnv) :
  handler_frame → reachable self →
  _check_game_over self = true →
  Steps self self' →
  state self' = state self ∧ _check_game_over self' = true.
Proof.
  intros Hframe Hreach Hover Hsteps.
  assert (state self' = state self) as Hst.
  { apply steps_frozen; [done..|]. intros agent.
    by rewrite (reachable_dones self Hframe Hreach). }
  split; [done|]. by rewrite (check_game_over_state _ _ Hst).
Qed.

(** * The driver *)

Lemma step_flags_after (draw action : Z) (self : LudoEnv) :
  (∀ agent, _dones self agent = false) →
  let self' := step draw action self in
  (forallb (_dones self') possible_agents = true
   ∧ _check_game_over self' = true)
  ∨ (forallb (_dones self') possible_agents = false
     ∧ ∀ agent, _dones self' agent = false).
Proof.
  intros Hall self'. subst self'.
  destruct (step_live draw action self (Hall _)) as (Hst & _ & _ & Hdn).
  rewrite (check_game_over_state _ _ Hst), Hdn.
  destruct (_check_game_over _); [by left|]. right.
  split; [|done]. cbn. by rewrite Hall.
Qed.

Lemma main_loop_run (iterations : list nat) (samples : nat → Z * Z)
    (env : LudoEnv) :
  (∀ agent, _dones env agent = false) →
  ∃ n, (n ≤ length iterations)%nat
       ∧ main_loop iterations samples env
         = run (samples <$> take n iterations) env
       ∧ ((n < length iterations)%nat →
          _check_game_over (main_loop iterations samples env) = true).
Proof.
  revert env. induction iterations as [|k rest IH]; intros env Hall.
  - exists 0%nat. split; [done|]. split; [done|]. cbn. lia.
  - cbn [main_loop].
    destruct (step_flags_after (samples k).1 (samples k).2 env Hall)
      as [[Hstop Hover]|[Hgo Hall']]; cbn zeta in *.
    + rewrite Hstop. exists 1%nat. cbn [length]. split; [lia|].
      split; [done|]. done.
    + rewrite Hgo. destruct (IH _ Hall') as (n & Hn & Hrun & Hover).
      exists (S n). cbn [length]. split; [lia|]. split; [done|].
      intros Hlt. apply Hover. lia.
Qed.

(** X16.  The driver resets the environment and then makes at most 100
    calls of [step], one per iteration, with the sampled actions; it stops
    before the hundredth call only when the game is over. *)
Theorem main_plays_a_prefix (samples : nat → Z * Z) (env : LudoEnv) :
  ∃ n, (n ≤ 100)%nat
       ∧ main samples env = run (samples <$> seq 0 n) (reset None env)
       ∧ ((n < 100)%nat → _check_game_over (main samples env) = true).
Proof.
  unfold main.
  destruct (main_loop_run (seq 0 100) samples (reset None env))
    as (n & Hn & Hrun & Hover); [done|].
  rewrite length_seq in Hn, Hover.
  exists n. split; [done|]. split; [|done].
  rewrite Hrun, take_seq. by replace (n `min` 100)%nat with n by lia.
Qed.

(** * A token on cell 57, over a whole play *)

Lemma Steps_reachable (self self' : LudoEnv) :
  reachable self → Steps self self' → reachable self'.
Proof.
  intros Hreach Hsteps.
  induction Hsteps as [self|self mid self' [action Hstep] _ IH]; [done|].
  apply IH. by eapply reachable_step.
Qed.




Lemma run_reachable (turns : list (Z * Z)) (self : LudoEnv) :
  Forall (λ turn, 1 <= turn.1 <= 6) turns →
  reachable self → reachable (run turns self).
Proof.
  unfold run. revert self.
  induction turns as [|[draw action] turns IH]; intros self Hdraws Hreach;
    cbn [foldl]; [done|].
  apply Forall_cons in Hdraws as [Hdraw Hdraws].
  apply IH; [done|]. eapply reachable_step; [done | by constructor].
Qed.


End Engine.

(** * Examples on concrete instances *)

Lemma empty_board_shape : board_shape empty_board.
Proof. split; [done|]. by do 4 constructor. Qed.

Lemma idle_frame : handler_frame idle.
Proof. by intros action self. Qed.

Lemma calculate_new_position_spec_witness :
  1 <= 4 <= 6
  ∧ home_stretches
      !! index (agent_selection (playing empty_board GREEN 0)) possible_agents
    = Some [12; 13; 14; 15; 16; 17]
  ∧ head [12; 13; 14; 15; 16; 17] = Some 12
  ∧ (let candidate := (10 + 4) `mod` 52 in
     (10 < 52 →
        (candidate ∈ [12; 13; 14; 15; 16; 17] →
           _calculate_new_position (playing empty_board GREEN 0) 10 4
           = 52 + (candidate - 12))
        ∧ (candidate ∉ [12; 13; 14; 15; 16; 17] →
           _calculate_new_position (playing empty_board GREEN 0) 10 4
           = candidate))
     ∧ (52 <= 10 < 57 →
        _calculate_new_position (playing empty_board GREEN 0) 10 4
        = Z.min (10 + 4) 58)
     ∧ (10 = 58 →
        _calculate_new_position (playing empty_board GREEN 0) 10 4 = 10)).
Proof.
  split; [lia|]. split; [reflexivity|]. split; [reflexivity|].
  apply (calculate_new_position_spec (playing empty_board GREEN 0) 10 4
           [12; 13; 14; 15; 16; 17] 12); [lia | reflexivity | reflexivity].
Defined.

Lemma red_home_entry_single_cell_witness :
  45 < 52
  ∧ (let candidate := (45 + 6) `mod` 52 in
     let new_pos := _calculate_new_position (playing empty_board RED 0) 45 6 in
     home_stretches !!! index RED possible_agents = [51; 52; 53; 54; 55; 56]
     ∧ filter (λ v, ¬ (0 <= v <= 51)) [51; 52; 53; 54; 55; 56]
       = [52; 53; 54; 55; 56]
     ∧ 0 <= candidate <= 51
     ∧ (52 <= new_pos ↔ candidate = 51)
       ∧ (candidate = 51 → new_pos = 52)
       ∧ (candidate ≠ 51 → new_pos = candidate)).
Proof.
  split; [lia|].
  apply (red_home_entry_single_cell (playing empty_board RED 0) 45 6). lia.
Defined.


Lemma start_square_in_home_entry_window_witness :
  agent_selection (playing empty_board GREEN 0) ≠ RED
  ∧ 1 <= 2 <= 4
  ∧ _calculate_new_position (playing empty_board GREEN 0) 13 2 = 55.
Proof.
  split; [discriminate|]. split; [lia|].
  destruct (start_square_in_home_entry_window (playing empty_board GREEN 0) 2)
    as (_ & _ & Hmove & _); [discriminate | lia |].
  exact Hmove.
Defined.

Lemma mask_actions_spec_witness :
  board_shape [[0; -1; 57; 53]; [-1; -1; -1; -1]; [-1; -1; -1; -1];
               [-1; -1; -1; -1]]
  ∧ valid_board [[0; -1; 57; 53]; [-1; -1; -1; -1]; [-1; -1; -1; -1];
                 [-1; -1; -1; -1]]
  ∧ length (_mask_actions
              (playing [[0; -1; 57; 53]; [-1; -1; -1; -1]; [-1; -1; -1; -1];
                        [-1; -1; -1; -1]] RED 6) RED) = 5%nat.
Proof.
  assert (board_shape [[0; -1; 57; 53]; [-1; -1; -1; -1]; [-1; -1; -1; -1];
                       [-1; -1; -1; -1]]) as Hshape.
  { split; [reflexivity|]. repeat constructor. }
  assert (valid_board [[0; -1; 57; 53]; [-1; -1; -1; -1]; [-1; -1; -1; -1];
                       [-1; -1; -1; -1]]) as Hvalid.
  { unfold valid_board, valid_position, on_bench, on_loop, on_home,
      OUT_OF_BOUNDS, FINAL_SQUARE.
    repeat (constructor; [repeat (constructor; [lia|]); constructor|]).
    constructor. }
  split; [exact Hshape|]. split; [exact Hvalid|].
  apply (mask_actions_spec
           (playing [[0; -1; 57; 53]; [-1; -1; -1; -1]; [-1; -1; -1; -1];
                     [-1; -1; -1; -1]] RED 6) RED Hshape Hvalid).
Defined.

Lemma enter_action_spec_witness :
  board_shape (state (playing empty_board RED 0))
  ∧ _dones (playing empty_board RED 0)
      (agent_selection (playing empty_board RED 0)) = false
  ∧ cell (state (step cyclic_next idle 6 0 (playing empty_board RED 0)))
      0 0 = 0.
Proof.
  split; [exact empty_board_shape|]. split; [reflexivity|].
  destruct (enter_action_spec cyclic_next idle (playing empty_board RED 0) 6
              empty_board_shape eq_refl) as [Henter _].
  destruct (Henter 0%nat) as [Hcell _];
    [reflexivity | unfold NUM_TOKENS; lia | reflexivity | intros t' Ht'; lia |].
  exact Hcell.
Defined.

Lemma reachable_after_entering :
  reachable cyclic_selector cyclic_next idle
    (run cyclic_next idle [(6, 0)]
       (reset cyclic_selector None (playing empty_board RED 0))).
Proof.
  apply run_reachable; [|apply reachable_reset].
  constructor; [cbn; lia | constructor].
Defined.

Lemma reachable_positions_valid_witness :
  handler_frame idle
  ∧ reachable cyclic_selector cyclic_next idle
      (run cyclic_next idle [(6, 0)]
         (reset cyclic_selector None (playing empty_board RED 0)))
  ∧ valid_board
      (state (run cyclic_next idle [(6, 0)]
                (reset cyclic_selector None (playing empty_board RED 0)))).
Proof.
  split; [exact idle_frame|]. split; [exact reachable_after_entering|].
  apply (reachable_positions_valid cyclic_selector cyclic_next idle _
           idle_frame reachable_after_entering).
Defined.

Lemma green_almost_wins_reachable :
  reachable cyclic_selector cyclic_next idle
    (run cyclic_next idle green_almost_wins
       (reset cyclic_selector None (playing empty_board RED 0))).
Proof.
  apply run_reachable; [|apply reachable_reset].
  refine (bool_decide_unpack _ _). vm_compute. exact I.
Defined.

Lemma game_over_sets_all_flags_witness :
  board_shape
    (state (run cyclic_next idle green_almost_wins
              (reset cyclic_selector None (playing empty_board RED 0))))
  ∧ (∀ agent,
       _dones (run cyclic_next idle green_almost_wins
                 (reset cyclic_selector None (playing empty_board RED 0)))
         agent = false)
  ∧ (∃ i, (i < NUM_PLAYERS)%nat
          ∧ ∀ j, (j < NUM_TOKENS)%nat →
                 cell (state
                         (step cyclic_next idle 4 4
                            (run cyclic_next idle green_almost_wins
                               (reset cyclic_selector None
                                  (playing empty_board RED 0))))) i j
                 = FINAL_SQUARE)
  ∧ ∀ agent,
      _dones (step cyclic_next idle 4 4
                (run cyclic_next idle green_almost_wins
                   (reset cyclic_selector None (playing empty_board RED 0))))
        agent = true.
Proof.
  assert (board_shape
            (state (run cyclic_next idle green_almost_wins
                      (reset cyclic_selector None
                         (playing empty_board RED 0))))) as Hshape.
  { apply (reachable_board cyclic_selector cyclic_next idle _ idle_frame
             green_almost_wins_reachable). }
  assert (∃ i, (i < NUM_PLAYERS)%nat
               ∧ ∀ j, (j < NUM_TOKENS)%nat →
                      cell (state
                              (step cyclic_next idle 4 4
                                 (run cyclic_next idle green_almost_wins
                                    (reset cyclic_selector None
                                       (playing empty_board RED 0))))) i j
                      = FINAL_SQUARE) as Hfinished.
  { exists 1%nat. split; [unfold NUM_PLAYERS; lia|]. intros j Hj.
    unfold NUM_TOKENS in Hj.
    destruct j as [|[|[|[|j]]]]; [| | | |lia]; vm_compute; reflexivity. }
  split; [exact Hshape|]. split; [intros agent; vm_compute; reflexivity|].
  split; [exact Hfinished|].
  destruct (game_over_sets_all_flags cyclic_selector cyclic_next idle
              (run cyclic_next idle green_almost_wins
                 (reset cyclic_selector None (playing empty_board RED 0))))
    as [Hstep _].
  destruct (Hstep 4 4 Hshape eq_refl) as [Hset _].
  exact (Hset Hfinished).
Defined.

Lemma step_draws_its_own_roll_witness :
  _dones (playing empty_board RED 3)
    (agent_selection (playing empty_board RED 3)) = false
  ∧ dice_roll (step cyclic_next idle 6 0 (playing empty_board RED 3)) = 6
  ∧ step cyclic_next idle 6 0 (set_dice_roll 1 (playing empty_board RED 3))
    = step cyclic_next idle 6 0 (playing empty_board RED 3).
Proof.
  split; [reflexivity|].
  destruct (step_draws_its_own_roll cyclic_selector cyclic_next idle 6 0
              (playing empty_board RED 3) eq_refl)
    as (_ & Hroll & Hignored & _).
  split; [exact Hroll | exact (Hignored 1)].
Defined.

(** A token can finish without a lap: Green enters token 0 with a 6, then
    rolls 1 (cell 54 of the home stretch) and 4 (the terminal cell). *)
Example green_finishes_without_a_lap :
  let final :=
    run cyclic_next idle
      [(1, 0); (1, 0); (6, 0); (1, 0); (1, 0); (1, 0); (1, 1); (1, 0);
       (1, 0); (1, 0); (4, 1)]
      (reset cyclic_selector None (playing empty_board RED 0)) in
  state final = [[-1; -1; -1; -1]; [58; -1; -1; -1]; [-1; -1; -1; -1];
                 [-1; -1; -1; -1]]
  ∧ rewards final GREEN = 2.
Proof. intros final. split; vm_compute; reflexivity. Qed.

(** C8 (as stated) fails: [step] receives the instance and the action
    only, and a fixed seed given to [reset] together with a fixed sequence
    of actions does not fix the outcome.  After [reset] with seed 42, Red
    asks to enter; the generator returns 6 in one play and 1 in the other,
    and the two boards differ. *)
Lemma seeded_play_not_reproducible :
  ¬ (∀ (seed : option Z) (actions : list Z) (env out1 out2 : LudoEnv Cyclic),
       Plays cyclic_next idle actions (reset cyclic_selector seed env) out1 →
       Plays cyclic_next idle actions (reset cyclic_selector seed env) out2 →
       state out1 = state out2
       ∧ (∀ agent, rewards out1 agent = rewards out2 agent)
       ∧ (∀ agent, _dones out1 agent = _dones out2 agent)).
Proof.
  intros Hsame.
  destruct (Hsame (Some 42) [0] (playing empty_board RED 0)
              (step cyclic_next idle 6 0
                 (reset cyclic_selector (Some 42) (playing empty_board RED 0)))
              (step cyclic_next idle 1 0
                 (reset cyclic_selector (Some 42) (playing empty_board RED 0))))
    as [Hstate _].
  - eapply Plays_cons; [|apply Plays_nil]. constructor. lia.
  - eapply Plays_cons; [|apply Plays_nil]. constructor. lia.
  - vm_compute in Hstate. discriminate Hstate.
Qed.


(** C1 fails on the code.  After Green's token 0 has reached cell 54 of
    its home stretch, Blue moves its token 0 from its start square 26 with
    a roll of 1; the move lands on 54, in Blue's own home stretch, and yet
    Green's token is sent to the bench and Blue is rewarded 1. *)
Theorem capture_inside_home_stretch :
  let before :=
    run cyclic_next idle
      [(1, 0); (1, 0); (6, 0); (6, 0); (1, 0); (1, 0); (1, 1)]
      (reset cyclic_selector None (playing empty_board RED 0)) in
  let after := step cyclic_next idle 1 1 before in
  reachable cyclic_selector cyclic_next idle before
  ∧ agent_selection before = BLUE
  ∧ state before = [[-1; -1; -1; -1]; [54; -1; -1; -1]; [26; -1; -1; -1];
                    [-1; -1; -1; -1]]
  ∧ _calculate_new_position before 26 1 = 54
  ∧ (_check_capture
        (set_state [[-1; -1; -1; -1]; [54; -1; -1; -1]; [54; -1; -1; -1];
                    [-1; -1; -1; -1]] before) 54).1
    = Some (1%nat, 0%nat)
  ∧ state after = [[-1; -1; -1; -1]; [-1; -1; -1; -1]; [54; -1; -1; -1];
                   [-1; -1; -1; -1]]
  ∧ rewards after BLUE = 1.
Proof.
  intros before after. split.
  { apply run_reachable; [|apply reachable_reset].
    repeat (constructor; [cbn; lia|]). constructor. }
  do 5 (split; [vm_compute; reflexivity|]). vm_compute; reflexivity.
Qed.

(** * The driver and the handler for done agents *)

Lemma step_live_any_handler {A : Type} (next : A → Player * A)
    (h1 h2 : Z → LudoEnv A → LudoEnv A) (draw action : Z) (self : LudoEnv A) :
  _dones self (agent_selection self) = false →
  step next h1 draw action self = step next h2 draw action self.
Proof. intros Hlive. unfold step. by rewrite Hlive. Qed.

Lemma main_loop_any_handler {A : Type} (next : A → Player * A)
    (h1 h2 : Z → LudoEnv A → LudoEnv A) (iterations : list nat)
    (samples : nat → Z * Z) (env : LudoEnv A) :
  (∀ agent, _dones env agent = false) →
  main_loop next h1 iterations samples env
  = main_loop next h2 iterations samples env.
Proof.
  revert env. induction iterations as [|k rest IH]; intros env Hall; [done|].
  cbn [main_loop].
  rewrite (step_live_any_handler next h1 h2) by apply Hall.
  destruct (step_flags_after next h2 (samples k).1 (samples k).2 env Hall)
    as [[Hstop _]|[Hgo Hall']]; cbn zeta in *.
  - by rewrite Hstop.
  - rewrite Hgo. by apply IH.
Qed.

(** X17.  The driver never reaches the handler for done agents: it stops
    at the first call of [step] that ends the game, so its result is the
    same whatever [_was_done_step] does. *)
Theorem main_never_calls_handler {A : Type} (new : list Player → A)
    (next : A → Player * A) (h1 h2 : Z → LudoEnv A → LudoEnv A)
    (samples : nat → Z * Z) (env : LudoEnv A) :
  main new next h1 samples env = main new next h2 samples env.
Proof. unfold main. by apply main_loop_any_handler. Qed.

(** * Examples for the properties above *)

Lemma idle_keeps_roll : handler_keeps_roll idle.
Proof. by intros action self. Qed.

Lemma red_near_green_start_shape : board_shape red_near_green_start.
Proof. split; [reflexivity|]. repeat constructor. Qed.

Lemma red_in_home_stretch_shape : board_shape red_in_home_stretch.
Proof. split; [reflexivity|]. repeat constructor. Qed.

Lemma red_in_home_stretch_valid : valid_board red_in_home_stretch.
Proof.
  unfold valid_board, valid_position, on_bench, on_loop, on_home,
    OUT_OF_BOUNDS, FINAL_SQUARE.
  repeat (constructor; [repeat (constructor; [lia|]); constructor|]).
  constructor.
Qed.

Lemma green_wins_reachable :
  reachable cyclic_selector cyclic_next idle
    (run cyclic_next idle green_wins
       (reset cyclic_selector None (playing empty_board RED 0))).
Proof.
  apply run_reachable; [|apply reachable_reset].
  refine (bool_decide_unpack _ _). vm_compute. exact I.
Qed.

Lemma start_square_landing_is_safe_witness :
  _dones (playing red_near_green_start RED 0)
    (agent_selection (playing red_near_green_start RED 0)) = false
  ∧ cell red_near_green_start 0 0 ≠ OUT_OF_BOUNDS
  ∧ _calculate_new_position (playing red_near_green_start RED 0) 7 6
    ∈ start_positions
  ∧ rewards (step cyclic_next idle 6 1 (playing red_near_green_start RED 0))
      RED = 0.
Proof.
  assert (cell red_near_green_start 0 0 ≠ OUT_OF_BOUNDS) as Hcell
    by (vm_compute; discriminate).
  assert (_calculate_new_position (playing red_near_green_start RED 0) 7 6
          ∈ start_positions) as Hstart.
  { change (13 ∈ [0; 13; 26; 39]). right; left. }
  split; [reflexivity|]. split; [exact Hcell|]. split; [exact Hstart|].
  apply (start_square_landing_is_safe cyclic_next idle 6 1
           (playing red_near_green_start RED 0) 0 eq_refl eq_refl);
    [unfold NUM_TOKENS; lia | exact Hcell | exact Hstart].
Defined.

Lemma step_captures_at_most_one_witness :
  board_shape (state (playing red_in_home_stretch RED 0))
  ∧ _dones (playing red_in_home_stretch RED 0)
      (agent_selection (playing red_in_home_stretch RED 0)) = false
  ∧ (let st' :=
       state (step cyclic_next idle 3 1 (playing red_in_home_stretch RED 0)) in
     let reward :=
       rewards (step cyclic_next idle 3 1 (playing red_in_home_stretch RED 0))
         RED in
     ((∀ p k, p ≠ 0%nat → cell st' p k = cell red_in_home_stretch p k)
      ∧ (reward = 0 ∨ reward = 2))
     ∨ ∃ player piece,
         player ≠ 0%nat ∧ (player < NUM_PLAYERS)%nat
         ∧ (piece < NUM_TOKENS)%nat
         ∧ (cell red_in_home_stretch player piece ∉ start_positions)
         ∧ cell st' player piece = OUT_OF_BOUNDS
         ∧ (∀ p k, p ≠ 0%nat → (p, k) ≠ (player, piece) →
                   cell st' p k = cell red_in_home_stretch p k)
         ∧ (reward = 1 ∨ reward = 3)).
Proof.
  split; [exact red_in_home_stretch_shape|]. split; [reflexivity|].
  exact (step_captures_at_most_one cyclic_next idle 3 1
           (playing red_in_home_stretch RED 0)
           red_in_home_stretch_shape eq_refl).
Defined.

Lemma step_reward_accounting_witness :
  _dones (playing red_in_home_stretch RED 0)
    (agent_selection (playing red_in_home_stretch RED 0)) = false
  ∧ 0 <= rewards (step cyclic_next idle 3 1
                    (playing red_in_home_stretch RED 0)) RED <= 3.
Proof.
  split; [reflexivity|].
  apply (step_reward_accounting cyclic_next idle 3 1
           (playing red_in_home_stretch RED 0) eq_refl).
Defined.

Lemma step_turn_rotation_witness :
  _dones (playing red_in_home_stretch RED 0)
    (agent_selection (playing red_in_home_stretch RED 0)) = false
  ∧ dice_roll (step cyclic_next idle 3 1 (playing red_in_home_stretch RED 0))
    = 3.
Proof.
  split; [reflexivity|].
  apply (step_turn_rotation cyclic_next idle 3 1
           (playing red_in_home_stretch RED 0) eq_refl).
Defined.

Lemma unplayable_action_is_a_pass_witness :
  _dones (playing red_in_home_stretch RED 0)
    (agent_selection (playing red_in_home_stretch RED 0)) = false
  ∧ (7 < 0 ∨ 4 < 7 ∨ 7 = 0 ∧ 3 ≠ 6
     ∨ 1 <= 7 <= 4
       ∧ cell red_in_home_stretch 0 (Z.to_nat (7 - 1)) = OUT_OF_BOUNDS)
  ∧ state (step cyclic_next idle 3 7 (playing red_in_home_stretch RED 0))
    = red_in_home_stretch.
Proof.
  split; [reflexivity|]. split; [right; left; lia|].
  apply (unplayable_action_is_a_pass cyclic_next idle 3 7
           (playing red_in_home_stretch RED 0) eq_refl).
  right; left. lia.
Defined.

Lemma move_changes_only_that_token_witness :
  board_shape (state (playing red_in_home_stretch RED 0))
  ∧ _dones (playing red_in_home_stretch RED 0)
      (agent_selection (playing red_in_home_stretch RED 0)) = false
  ∧ cell red_in_home_stretch 0 0 ≠ OUT_OF_BOUNDS
  ∧ cell (state (step cyclic_next idle 2 1
                   (playing red_in_home_stretch RED 0))) 0 0
    = _calculate_new_position (playing red_in_home_stretch RED 0) 55 2.
Proof.
  assert (cell red_in_home_stretch 0 0 ≠ OUT_OF_BOUNDS) as Hcell
    by (vm_compute; discriminate).
  split; [exact red_in_home_stretch_shape|]. split; [reflexivity|].
  split; [exact Hcell|].
  apply (move_changes_only_that_token cyclic_next idle 2 1
           (playing red_in_home_stretch RED 0) 0
           red_in_home_stretch_shape eq_refl eq_refl);
    [unfold NUM_TOKENS; lia | exact Hcell].
Defined.

Lemma advance_fixed_points_witness :
  0 <= 57 <= FINAL_SQUARE ∧ 1 <= 5 <= 6
  ∧ (_calculate_new_position (playing empty_board BLUE 0) 57 5 = 57
     ↔ 57 <= 57).
Proof.
  assert (0 <= 57 <= FINAL_SQUARE) as Hp by (unfold FINAL_SQUARE; lia).
  assert (1 <= 5 <= 6) as Hroll by lia.
  split; [exact Hp|]. split; [exact Hroll|].
  exact (advance_fixed_points (playing empty_board BLUE 0) 57 5 Hp Hroll).
Defined.

Lemma home_stretch_never_left_witness :
  52 <= 53 <= FINAL_SQUARE
  ∧ Forall (λ roll, 0 <= roll) [2; 6]
  ∧ 53 <= advance (playing empty_board BLUE 0) [2; 6] 53 <= FINAL_SQUARE.
Proof.
  assert (52 <= 53 <= FINAL_SQUARE) as Hp by (unfold FINAL_SQUARE; lia).
  assert (Forall (λ roll, 0 <= roll) [2; 6]) as Hrolls
    by (repeat constructor; lia).
  split; [exact Hp|]. split; [exact Hrolls|].
  exact (home_stretch_never_left (playing empty_board BLUE 0) [2; 6] 53
           Hp Hrolls).
Defined.

Lemma finished_token_rewarded_again_witness :
  _dones (playing red_in_home_stretch RED 0)
    (agent_selection (playing red_in_home_stretch RED 0)) = false
  ∧ cell (state (playing red_in_home_stretch RED 0)) 0 1 = FINAL_SQUARE
  ∧ cell (state (step cyclic_next idle 4 2
                   (playing red_in_home_stretch RED 0))) 0 1 = FINAL_SQUARE
  ∧ (rewards (step cyclic_next idle 4 2 (playing red_in_home_stretch RED 0))
       RED = 2
     ∨ rewards (step cyclic_next idle 4 2 (playing red_in_home_stretch RED 0))
         RED = 3).
Proof.
  split; [reflexivity|]. split; [reflexivity|].
  apply (finished_token_rewarded_again cyclic_next idle 4 2
           (playing red_in_home_stretch RED 0) 1 eq_refl eq_refl);
    [unfold NUM_TOKENS; lia | reflexivity].
Defined.

Lemma overshoot_masked_but_played_witness :
  board_shape (state (playing red_in_home_stretch RED 0))
  ∧ _dones (playing red_in_home_stretch RED 0)
      (agent_selection (playing red_in_home_stretch RED 0)) = false
  ∧ 52 <= cell (state (playing red_in_home_stretch RED 0)) 0 0 < 57
  ∧ FINAL_SQUARE < cell (state (playing red_in_home_stretch RED 0)) 0 0 + 5
  ∧ _mask_actions (set_dice_roll 5 (playing red_in_home_stretch RED 0)) RED
      !!! 1%nat = 0
  ∧ cell (state (step cyclic_next idle 5 1
                   (playing red_in_home_stretch RED 0))) 0 0 = FINAL_SQUARE
  ∧ 2 <= rewards (step cyclic_next idle 5 1
                    (playing red_in_home_stretch RED 0)) RED.
Proof.
  assert (52 <= cell (state (playing red_in_home_stretch RED 0)) 0 0 < 57)
    as Hpos by (vm_compute; split; [discriminate | reflexivity]).
  assert (FINAL_SQUARE
          < cell (state (playing red_in_home_stretch RED 0)) 0 0 + 5)
    as Hover by (vm_compute; reflexivity).
  split; [exact red_in_home_stretch_shape|]. split; [reflexivity|].
  split; [exact Hpos|]. split; [exact Hover|].
  apply (overshoot_masked_but_played cyclic_next idle 5 1
           (playing red_in_home_stretch RED 0) 0
           red_in_home_stretch_shape eq_refl eq_refl);
    [unfold NUM_TOKENS; lia | exact Hpos | exact Hover].
Defined.

Lemma enter_mask_agrees_with_step_witness :
  board_shape (state (playing empty_board RED 0))
  ∧ _dones (playing empty_board RED 0)
      (agent_selection (playing empty_board RED 0)) = false
  ∧ (_mask_actions (set_dice_roll 6 (playing empty_board RED 0)) RED
       !!! 0%nat = 1
     ↔ state (step cyclic_next idle 6 0 (playing empty_board RED 0))
       ≠ state (playing empty_board RED 0)).
Proof.
  split; [exact empty_board_shape|]. split; [reflexivity|].
  exact (enter_mask_agrees_with_step cyclic_next idle 6
           (playing empty_board RED 0) empty_board_shape eq_refl).
Defined.

Lemma bench_discipline_witness :
  board_shape (state (playing red_in_home_stretch RED 0))
  ∧ valid_board (state (playing red_in_home_stretch RED 0))
  ∧ _dones (playing red_in_home_stretch RED 0)
      (agent_selection (playing red_in_home_stretch RED 0)) = false
  ∧ 1 <= 3 <= 6
  ∧ ∀ k, (k < NUM_TOKENS)%nat →
      cell red_in_home_stretch 0 k ≠ OUT_OF_BOUNDS →
      cell (state (step cyclic_next idle 3 1
                     (playing red_in_home_stretch RED 0))) 0 k
      ≠ OUT_OF_BOUNDS.
Proof.
  assert (1 <= 3 <= 6) as Hdraw by lia.
  split; [exact red_in_home_stretch_shape|].
  split; [exact red_in_home_stretch_valid|].
  split; [reflexivity|]. split; [exact Hdraw|].
  apply (bench_discipline cyclic_next idle 3 1
           (playing red_in_home_stretch RED 0)
           red_in_home_stretch_shape red_in_home_stretch_valid eq_refl Hdraw).
Defined.

Lemma observe_in_observation_space_witness :
  handler_frame idle ∧ handler_keeps_roll idle
  ∧ reachable cyclic_selector cyclic_next idle
      (run cyclic_next idle [(6, 0)]
         (reset cyclic_selector None (playing empty_board RED 0)))
  ∧ in_observation_space
      (observe
         (run cyclic_next idle [(6, 0)]
            (reset cyclic_selector None (playing empty_board RED 0)))
         GREEN).
Proof.
  split; [exact idle_frame|]. split; [exact idle_keeps_roll|].
  split; [exact reachable_after_entering|].
  exact (observe_in_observation_space cyclic_selector cyclic_next idle _
           GREEN idle_frame idle_keeps_roll reachable_after_entering).
Defined.

Lemma board_frozen_after_game_over_witness :
  handler_frame idle
  ∧ reachable cyclic_selector cyclic_next idle
      (run cyclic_next idle green_wins
         (reset cyclic_selector None (playing empty_board RED 0)))
  ∧ _check_game_over
      (run cyclic_next idle green_wins
         (reset cyclic_selector None (playing empty_board RED 0))) = true
  ∧ state
      (step cyclic_next idle 6 1
         (run cyclic_next idle green_wins
            (reset cyclic_selector None (playing empty_board RED 0))))
    = state
        (run cyclic_next idle green_wins
           (reset cyclic_selector None (playing empty_board RED 0))).
Proof.
  assert (_check_game_over
            (run cyclic_next idle green_wins
               (reset cyclic_selector None (playing empty_board RED 0)))
          = true) as Hover by (vm_compute; reflexivity).
  split; [exact idle_frame|]. split; [exact green_wins_reachable|].
  split; [exact Hover|].
  apply (board_frozen_after_game_over cyclic_selector cyclic_next idle _ _
           idle_frame green_wins_reachable Hover).
  apply rtc_once. exists 1. constructor. lia.
Defined.
